(** * Node change tracking, topology filtering and ipset reconciliation

    A shallow embedding of three pieces of the proxy:

    - [pkg/proxy] node snapshots, [NodeChangeTracker.Update] and
      [NodeMap.apply];
    - [pkg/proxy] [FilterTopologyEndpoint];
    - [pkg/proxy/ipvs] [IPSet.isEmpty] and [IPSet.syncIPSetEntries] over the
      [pkg/util/ipset] [Interface].

    Go maps are [gmap]s, [sets.String] is a [gset string], a nil-able pointer
    or interface value is an [option], and every mutation is written as
    explicit state passing.  The mutex of the tracker is not modelled: the
    embedding is the sequential behaviour of one call at a time. *)

From Stdlib Require Import Ascii DecimalString DecimalZ DecimalPos.
From stdpp Require Import gmap strings list fin_maps sorting.

Set Default Proof Using "Type".

(** ** Package [pkg/proxy] *)

Module proxy.

(** *** Data model *)

(** [map[string]string]: a Go map value is either nil or a finite map.  The
    distinction is visible to [reflect.DeepEqual]. *)
Abbreviation GoLabels := (option (gmap string string)).

(** Modelled from the spec: [v1.Node] is declared outside these sources; a
    delivered node object is read for its identity and its topology labels
    only, [ObjectMeta.Name] and [ObjectMeta.Labels]. *)
Record v1Node := mkV1Node {
  Name : string;
  Labels : GoLabels
}.

(** [BaseNodeInfo], the only implementation of the [Node] interface. *)
Record BaseNodeInfo := mkBaseNodeInfo {
  name : string;
  labels : GoLabels
}.

(** A value of interface type [Node]: nil, or a pointer to a [BaseNodeInfo]. *)
Abbreviation Node := (option BaseNodeInfo).

(** [nodeChange]: the accumulated change of one node. *)
Record nodeChange := mkNodeChange {
  previous : Node;
  current : Node
}.

(** [NodeChangeTracker]: the pending changes by node name. *)
Record NodeChangeTracker := mkTracker {
  items : gmap string nodeChange
}.

(** [NodeMap]: entries are put there by [add], which never stores nil. *)
Abbreviation NodeMap := (gmap string BaseNodeInfo).

(** Modelled from the spec: package [metrics] is outside these sources; the
    tracker writes a monotonic event counter and a pending-count gauge. *)
Record Metrics := mkMetrics {
  NodeChangesTotal : nat;
  NodeChangesPending : nat
}.

(** Modelled from the spec: [BaseEndpointInfo] is declared outside these
    sources; a candidate endpoint is its address and the identity of the
    node that owns it (empty when unknown), the two fields the tests set. *)
Record Endpoint := mkEndpoint {
  EndpointStr : string;
  EpNodeName : string
}.

#[global] Instance v1Node_eq_dec : EqDecision v1Node.
Proof. solve_decision. Defined.
#[global] Instance BaseNodeInfo_eq_dec : EqDecision BaseNodeInfo.
Proof. solve_decision. Defined.
#[global] Instance nodeChange_eq_dec : EqDecision nodeChange.
Proof. solve_decision. Defined.
#[global] Instance Endpoint_eq_dec : EqDecision Endpoint.
Proof. solve_decision. Defined.

(** ** Node snapshots *)

Definition newBaseNodeInfo (nm : string) (lbls : GoLabels) : BaseNodeInfo :=
  {| name := nm; labels := lbls |}.

Definition NodeName (info : BaseNodeInfo) : string := name info.

(** [GetTopologyValue]: the comma-ok lookup; indexing a nil map finds
    nothing. *)
Definition GetTopologyValue (info : BaseNodeInfo) (key : string) : option string :=
  match labels info with
  | Some m => m !! key
  | None => None
  end.

Definition GetNodeName (ep : Endpoint) : string := EpNodeName ep.

(** ** [reflect.DeepEqual] on [Node] values

    Two maps are deeply equal when both are nil, or both are non-nil, have
    the same length and every entry of the first is in the second.  Two
    [*BaseNodeInfo] are deeply equal when the structs they point to are,
    field by field.  Two interface values are deeply equal when both are nil
    or both hold deeply equal values. *)

Definition mapDeepEqual (a b : GoLabels) : bool :=
  match a, b with
  | None, None => true
  | Some m1, Some m2 =>
      bool_decide (size m1 = size m2)
      && bool_decide (map_Forall (λ k v, m2 !! k = Some v) m1)
  | _, _ => false
  end.

Definition infoDeepEqual (a b : BaseNodeInfo) : bool :=
  bool_decide (name a = name b) && mapDeepEqual (labels a) (labels b).

Definition DeepEqual (a b : Node) : bool :=
  match a, b with
  | None, None => true
  | Some x, Some y => infoDeepEqual x y
  | _, _ => false
  end.

(** ** [NodeChangeTracker] *)

Definition NewNodeChangeTracker : NodeChangeTracker := {| items := ∅ |}.

Definition convertNode (node : option v1Node) : Node :=
  match node with
  | None => None
  | Some n => Some (newBaseNodeInfo (Name n) (Labels n))
  end.

(** The record for [key]: the one already pending, or a fresh one that
    remembers [previous] and is stored under [key]. *)
Definition changeFor (key : string) (prev : option v1Node)
    (its : gmap string nodeChange) : nodeChange * gmap string nodeChange :=
  match its !! key with
  | Some change => (change, its)
  | None =>
      let change := {| previous := convertNode prev; current := None |} in
      (change, <[key := change]> its)
  end.

(** [change.current = ...] writes through the pointer held by the map, so
    the map entry changes with it. *)
Definition setCurrent (key : string) (cur : option v1Node)
    (c : nodeChange * gmap string nodeChange) : nodeChange * gmap string nodeChange :=
  let change := {| previous := previous c.1; current := convertNode cur |} in
  (change, <[key := change]> c.2).

(** The no-change collapse at the end of [Update]. *)
Definition collapse (key : string)
    (c : nodeChange * gmap string nodeChange) : gmap string nodeChange :=
  if DeepEqual (previous c.1) (current c.1) then delete key c.2 else c.2.

(** [node := current; if node == nil { node = previous }]. *)
Definition changedNode (prev cur : option v1Node) : option v1Node :=
  match cur with
  | Some n => Some n
  | None => prev
  end.

Definition Update (prev cur : option v1Node)
    (ect : NodeChangeTracker) (mt : Metrics) : bool * NodeChangeTracker * Metrics :=
  match changedNode prev cur with
  | None => (false, ect, mt)
  | Some node =>
      let mt1 := {| NodeChangesTotal := S (NodeChangesTotal mt);
                    NodeChangesPending := NodeChangesPending mt |} in
      let key := Name node in
      let its := collapse key (setCurrent key cur (changeFor key prev (items ect))) in
      (bool_decide (0 < size its),
       {| items := its |},
       {| NodeChangesTotal := NodeChangesTotal mt1;
          NodeChangesPending := size its |})
  end.

(** *** [Update] in closed form

    Two definitions used to state what [Update] leaves behind. *)

(** The previous snapshot the record for [key] carries once [Update] has
    looked it up or created it: the one accumulated so far, or the one
    supplied now. *)
Definition accumulated (key : string) (prev : option v1Node)
    (its : gmap string nodeChange) : Node :=
  match its !! key with
  | Some r => previous r
  | None => convertNode prev
  end.

(** The pending map [Update] leaves, in closed form. *)
Definition updated (key : string) (prev cur : option v1Node)
    (its : gmap string nodeChange) : gmap string nodeChange :=
  if DeepEqual (accumulated key prev its) (convertNode cur)
  then delete key its
  else <[key := {| previous := accumulated key prev its; current := convertNode cur |}]> its.

(** ** [NodeMap] *)

Definition add (em : NodeMap) (other : Node) : NodeMap :=
  match other with
  | Some o => <[NodeName o := o]> em
  | None => em
  end.

Definition remove (em : NodeMap) (other : Node) : NodeMap :=
  match other with
  | Some o => delete (NodeName o) em
  | None => em
  end.

(** The body of the loop of [apply]: remove, then add. *)
Definition applyChange (em : NodeMap) (change : nodeChange) : NodeMap :=
  add (remove em (previous change)) (current change).

(** The loop of [apply] over the pending records taken in the order [order].
    Go leaves the order of a [range] over a map unspecified, so the order is
    a parameter here. *)
Definition applyRange (order : list (string * nodeChange)) (em : NodeMap) : NodeMap :=
  foldl (λ m kc, applyChange m kc.2) em order.

Definition applyIn (order : list (string * nodeChange)) (em : NodeMap)
    (changes : option NodeChangeTracker) (mt : Metrics)
    : NodeMap * option NodeChangeTracker * Metrics :=
  match changes with
  | None => (em, None, mt)
  | Some _ =>
      (applyRange order em,
       Some {| items := ∅ |},
       {| NodeChangesTotal := NodeChangesTotal mt; NodeChangesPending := 0 |})
  end.

(** The orders a [range] over the pending map can take. *)
Definition rangeOrder (changes : option NodeChangeTracker)
    (order : list (string * nodeChange)) : Prop :=
  match changes with
  | None => True
  | Some c => order ≡ₚ map_to_list (items c)
  end.

(** One run of [apply], with the iteration order of this library's maps. *)
Definition apply (em : NodeMap) (changes : option NodeChangeTracker) (mt : Metrics)
    : NodeMap * option NodeChangeTracker * Metrics :=
  applyIn (match changes with Some c => map_to_list (items c) | None => [] end)
          em changes mt.

Definition UpdateNodeMap (nodeMap : NodeMap) (changes : option NodeChangeTracker)
    (mt : Metrics) : NodeMap * option NodeChangeTracker * Metrics :=
  apply nodeMap changes mt.

(** ** [FilterTopologyEndpoint] *)

(** The inner loop: one pass over the candidates for [key], appending to
    [filteredEndpoint] every endpoint whose node is known and carries
    [topologyValue] under [key]. *)
Fixpoint scanEndpoints (nodeMap : NodeMap) (key topologyValue : string)
    (endpoints : list Endpoint) (filteredEndpoint : list Endpoint) : list Endpoint :=
  match endpoints with
  | [] => filteredEndpoint
  | ep :: rest =>
      let nodeName := GetNodeName ep in
      if decide (nodeName = "") then
        scanEndpoints nodeMap key topologyValue rest filteredEndpoint
      else
        match nodeMap !! nodeName with
        | None => scanEndpoints nodeMap key topologyValue rest filteredEndpoint
        | Some node =>
            match GetTopologyValue node key with
            | Some value =>
                if decide (value = topologyValue) then
                  scanEndpoints nodeMap key topologyValue rest (filteredEndpoint ++ [ep])
                else scanEndpoints nodeMap key topologyValue rest filteredEndpoint
            | None => scanEndpoints nodeMap key topologyValue rest filteredEndpoint
            end
        end
  end.

(** The outer loop over the topology keys.  [filteredEndpoint] is declared
    before the loop in the source and so is carried from one key to the
    next. *)
Fixpoint scanKeys (nodeMap : NodeMap) (currentNode : BaseNodeInfo)
    (endpoints : list Endpoint) (topologyKeys : list string)
    (filteredEndpoint : list Endpoint) : list Endpoint :=
  match topologyKeys with
  | [] => filteredEndpoint
  | key :: rest =>
      if decide (key = "") then endpoints
      else
        match GetTopologyValue currentNode key with
        | None => scanKeys nodeMap currentNode endpoints rest filteredEndpoint
        | Some topologyValue =>
            let filteredEndpoint :=
              scanEndpoints nodeMap key topologyValue endpoints filteredEndpoint in
            if decide (0 < length filteredEndpoint) then filteredEndpoint
            else scanKeys nodeMap currentNode endpoints rest filteredEndpoint
        end
  end.

Definition FilterTopologyEndpoint (currentNodeName : string) (nodeMap : NodeMap)
    (topologyKeys : list string) (endpoints : list Endpoint) : list Endpoint :=
  if decide (length topologyKeys = 0) then endpoints
  else
    match nodeMap !! currentNodeName with
    | None => endpoints
    | Some currentNode => scanKeys nodeMap currentNode endpoints topologyKeys []
    end.

(** *** What "a key matches a candidate" means

    The wording of the design: an endpoint matches a regular key when its
    owning node is known and that node's value for the key equals the
    current node's value; the empty key accepts every candidate. *)

Definition carries (nodeMap : NodeMap) (key want : string) (ep : Endpoint) : bool :=
  negb (bool_decide (EpNodeName ep = ""))
  && match nodeMap !! EpNodeName ep with
     | None => false
     | Some node => bool_decide (GetTopologyValue node key = Some want)
     end.

Definition affine (nodeMap : NodeMap) (currentNodeName key : string)
    (ep : Endpoint) : bool :=
  match nodeMap !! currentNodeName with
  | None => false
  | Some currentNode =>
      match GetTopologyValue currentNode key with
      | None => false
      | Some want => carries nodeMap key want ep
      end
  end.

Definition keyMatches (nodeMap : NodeMap) (currentNodeName key : string)
    (endpoints : list Endpoint) : list Endpoint :=
  if decide (key = "") then endpoints
  else filter (λ ep, affine nodeMap currentNodeName key ep = true) endpoints.

(** *** Pending records and the identities they name

    A record is stored under the name of the node it was reported for.
    [keyed k r]: the snapshots [r] holds are snapshots of the node [k].
    [touches r k]: [apply] removes or inserts the entry [k] for [r]. *)
Definition keyed (k : string) (r : nodeChange) : Prop :=
  (∀ p, previous r = Some p → NodeName p = k)
  ∧ (∀ c, current r = Some c → NodeName c = k).

Definition tracker_wf (ect : NodeChangeTracker) : Prop :=
  map_Forall keyed (items ect).

Definition touches (r : nodeChange) (k : string) : Prop :=
  (∃ p, previous r = Some p ∧ NodeName p = k)
  ∨ (∃ c, current r = Some c ∧ NodeName c = k).

(** An event as the node informer delivers it: the two sides, when both are
    there, are two versions of one node. *)
Definition sameIdentity (prev cur : option v1Node) : Prop :=
  ∀ p c, prev = Some p → cur = Some c → Name p = Name c.

(** What remove-then-insert of one record does to the entry of its node. *)
Definition effect (r : nodeChange) (o : option BaseNodeInfo) : option BaseNodeInfo :=
  match current r with
  | Some c => Some c
  | None => match previous r with Some _ => None | None => o end
  end.

(** A pending record that says something: its two snapshots differ (so
    they are not both nil). *)
Definition noNoop (ect : NodeChangeTracker) : Prop :=
  map_Forall (λ _ r, previous r ≠ current r) (items ect).

(** A sequence of events fed to [Update], results dropped. *)
Definition runUpdates (evs : list (option v1Node * option v1Node))
    (st : NodeChangeTracker * Metrics) : NodeChangeTracker * Metrics :=
  foldl (λ st ev, let r := Update ev.1 ev.2 st.1 st.2 in (r.1.2, r.2)) st evs.

(** [TestBuildNodeMapAddRemoveUpdate]: four nodes are added and applied;
    then the first gets a region label and the other three are deleted, and
    the changes are applied again. *)
Definition makeTestNode (nm : string) (lbls : GoLabels) : v1Node :=
  {| Name := nm; Labels := lbls |}.

Definition testNodes : list v1Node :=
  [makeTestNode "testNode1" None; makeTestNode "testNode2" None;
   makeTestNode "testNode3" None; makeTestNode "testNode4" None].

Definition oneNode : v1Node :=
  makeTestNode "testNode1" (Some {[ "failure-domain.beta.kubernetes.io/region" := "bj" ]}).

Definition afterAdds : NodeMap * option NodeChangeTracker * Metrics :=
  let st := runUpdates ((λ n, (None, Some n)) <$> testNodes)
              (NewNodeChangeTracker, {| NodeChangesTotal := 0; NodeChangesPending := 0 |}) in
  UpdateNodeMap ∅ (Some st.1) st.2.

Definition afterRemoves : NodeMap * option NodeChangeTracker * Metrics :=
  let st := runUpdates
              [(Some (makeTestNode "testNode1" None), Some oneNode);
               (Some (makeTestNode "testNode2" None), None);
               (Some (makeTestNode "testNode3" None), None);
               (Some (makeTestNode "testNode4" None), None)]
              (NewNodeChangeTracker, afterAdds.2) in
  UpdateNodeMap afterAdds.1.1 (Some st.1) st.2.

(** What one turn of the loop of [apply] does to the entry [k], said on
    lookups: the entry is removed when the record has a previous snapshot
    named [k], and then set to the current snapshot when the record has one
    named [k]. *)
Definition stepLookup (r : nodeChange) (k : string) (o : option BaseNodeInfo)
    : option BaseNodeInfo :=
  let removed :=
    match previous r with
    | Some p => if decide (name p = k) then None else o
    | None => o
    end in
  match current r with
  | Some c => if decide (name c = k) then Some c else removed
  | None => removed
  end.

(** *** Example data

    One node in three label states, and a tracker with its addition pending. *)
Definition nodeA : v1Node := {| Name := "testNode1"; Labels := None |}.
Definition nodeA' : v1Node :=
  {| Name := "testNode1"; Labels := Some {[ "zone" := "90001" ]} |}.
Definition nodeA'' : v1Node :=
  {| Name := "testNode1"; Labels := Some {[ "zone" := "90002" ]} |}.
Definition addedA : NodeChangeTracker :=
  {| items := {[ "testNode1" := {| previous := None; current := convertNode (Some nodeA) |} ]} |}.
Definition metrics0 : Metrics := {| NodeChangesTotal := 0; NodeChangesPending := 0 |}.


(** The node maps, endpoints and keys of cases 2, 3 and 4 of
    [TestFilterTopologyEndpoint]. *)
Definition hostname : string := "kubernetes.io/hostname".
Definition zone : string := "failure-domain.beta.kubernetes.io/zone".
Definition region : string := "failure-domain.beta.kubernetes.io/region".

Definition testNode (nm : string) (lbls : list (string * string)) : BaseNodeInfo :=
  {| name := nm; labels := Some (list_to_map lbls) |}.

Definition nodeMap2 : NodeMap :=
  list_to_map
    [("testNode1", testNode "testNode1" [(hostname, "10.0.0.1"); (zone, "90001")]);
     ("testNode2", testNode "testNode2" [(hostname, "10.0.0.2"); (zone, "90002")]);
     ("testNode3", testNode "testNode3" [(hostname, "10.0.0.3"); (zone, "90001")])].

Definition nodeMap4 : NodeMap :=
  list_to_map
    [("testNode1", testNode "testNode1"
        [(hostname, "10.0.0.1"); (zone, "90001"); (region, "bj")]);
     ("testNode2", testNode "testNode2"
        [(hostname, "10.0.0.2"); (zone, "80001"); (region, "sh")]);
     ("testNode3", testNode "testNode3"
        [(hostname, "10.0.0.3"); (zone, "90002"); (region, "bj")])].

Definition ep1 : Endpoint := {| EndpointStr := "1.1.1.1:11"; EpNodeName := "testNode1" |}.
Definition ep2 : Endpoint := {| EndpointStr := "1.1.1.2:11"; EpNodeName := "testNode2" |}.
Definition ep3 : Endpoint := {| EndpointStr := "1.1.1.3:11"; EpNodeName := "testNode3" |}.

(** A relabelling, a deletion and an addition pending at once, and a node
    map that knows the first two nodes and a fourth one. *)
Definition nodeB : v1Node := {| Name := "testNode2"; Labels := None |}.
Definition nodeC : v1Node := {| Name := "testNode3"; Labels := Some ∅ |}.
Definition nodeD : v1Node := {| Name := "testNode4"; Labels := None |}.

Definition mixedEvents : list (option v1Node * option v1Node) :=
  [(Some nodeA, Some nodeA'); (Some nodeB, None); (None, Some nodeC)].

Definition mixedPending : NodeChangeTracker :=
  (runUpdates mixedEvents (NewNodeChangeTracker, metrics0)).1.

Definition mixedMap : NodeMap :=
  list_to_map
    [("testNode1", newBaseNodeInfo (Name nodeA) (Labels nodeA));
     ("testNode2", newBaseNodeInfo (Name nodeB) (Labels nodeB));
     ("testNode4", newBaseNodeInfo (Name nodeD) (Labels nodeD))].

(** An update whose two sides are two different nodes. *)
Definition nodeX : v1Node := {| Name := "a"; Labels := None |}.
Definition nodeY : v1Node := {| Name := "b"; Labels := None |}.

End proxy.

(** ** Package [k8s.io/apimachinery/pkg/util/sets] *)

Module sets.

(** Modelled from the spec: [sets.String] is declared outside these sources;
    the desired membership is a set of canonical entry strings, and the
    reconciler takes set differences of it.  [Equal] is same length and
    superset, [List] is the members in increasing byte order. *)
Abbreviation String := (gset string).

Definition NewString : String := ∅.

Definition Insert (s : String) (item : string) : String := {[ item ]} ∪ s.

Definition Has (s : String) (item : string) : bool := bool_decide (item ∈ s).

Definition Difference (s s2 : String) : String :=
  filter (λ key, Has s2 key = false) s.

Definition IsSuperset (s1 s2 : String) : bool := bool_decide (s2 ⊆ s1).

Definition Equal (s1 s2 : String) : bool :=
  bool_decide (size s1 = size s2) && IsSuperset s1 s2.

Definition strLe (a b : string) : Prop := String.leb a b = true.

#[global] Instance strLe_dec a b : Decision (strLe a b).
Proof. unfold strLe. apply _. Defined.

Definition List (s : String) : list string := merge_sort strLe (elements s).

End sets.

(** ** Package [pkg/util/ipset] *)

Module ipset.

Inductive IPSetType := HashIpPort | HashIp | BitmapPort | OtherType (s : string).

Record IPSet := mkIPSet {
  Name : string;
  SetType : IPSetType;
  HashFamily : string;
  HashSize : Z;
  MaxElem : Z;
  PortRange : string
}.

Definition ProtocolFamilyIPV4 : string := "inet".
Definition ProtocolFamilyIPV6 : string := "inet6".

(** A Go [error] value that is not nil. *)
Definition error := string.

(** [Interface], the injectable handle on the kernel store, over the state
    [S] of whatever is behind it.  Each method may change that state and
    may fail.  Only the methods [pkg/proxy/ipvs] calls on a set's entries
    are kept. *)
Record Interface (S : Type) := mkInterface {
  AddEntry : string → string → bool → S → option error * S;
  DelEntry : string → string → S → option error * S;
  ListEntries : string → S → (list string * option error) * S
}.
Arguments AddEntry {S} _ _ _ _ _.
Arguments DelEntry {S} _ _ _ _.
Arguments ListEntries {S} _ _ _.

(** *** The [runner] implementation of [ListEntries]

    [exec] runs the ipset tool with the given arguments and gives its
    combined output; [members] is the text processing of a successful
    listing (header stripped by a regular expression, split at newlines,
    empty lines dropped). *)
Section runner.
Context {S : Type}.
Variable exec : list string → S → (string * option error) * S.
Variable members : string → list string.

Definition IPSetCmd : string := "ipset".

Definition runner_ListEntries (set : string) (s : S)
    : (list string * option error) * S :=
  if decide (String.length set = 0) then (([], Some "set name can't be nil"), s)
  else
    let '((out, err), s1) := exec [IPSetCmd; "list"; set] s in
    match err with
    | Some e => (([], Some ("error listing set: " +:+ set +:+ ", error: " +:+ e)), s1)
    | None => ((members out, None), s1)
    end.

Definition runner_AddEntry (entry set : string) (ignoreExistErr : bool) (s : S)
    : option error * S :=
  let args := ["add"; set; entry] ++ (if ignoreExistErr then ["-exist"] else []) in
  let '((_, err), s1) := exec (IPSetCmd :: args) s in
  match err with
  | Some e => (Some ("error adding entry " +:+ entry +:+ ", error: " +:+ e), s1)
  | None => (None, s1)
  end.

Definition runner_DelEntry (entry set : string) (s : S) : option error * S :=
  let '((_, err), s1) := exec [IPSetCmd; "del"; set; entry] s in
  match err with
  | Some e =>
      (Some ("error deleting entry " +:+ entry +:+ ": from set: " +:+ set
             +:+ ", error: " +:+ e), s1)
  | None => (None, s1)
  end.

Definition runner : Interface S :=
  {| AddEntry := runner_AddEntry;
     DelEntry := runner_DelEntry;
     ListEntries := runner_ListEntries |}.
End runner.

(** *** Set types, as the strings they are *)

Definition typeName (t : IPSetType) : string :=
  match t with
  | HashIpPort => "hash:ip,port"
  | HashIp => "hash:ip"
  | BitmapPort => "bitmap:port"
  | OtherType s => s
  end.

Definition DefaultPortRange : string := "0-65535".
Definition ProtocolTCP : string := "tcp".
Definition ProtocolUDP : string := "udp".

Definition ValidIPSetTypes : list IPSetType := [HashIpPort; HashIp; BitmapPort].

(** [IsValidIPSetType]: the loop over [ValidIPSetTypes], comparing the
    strings. *)
Definition IsValidIPSetType (set : IPSetType) : bool :=
  existsb (λ valid, bool_decide (typeName set = typeName valid)) ValidIPSetTypes.

(** *** [strconv] and [strings], as far as this package uses them *)

(** [strconv.Itoa]: the decimal digits, with a minus sign when negative. *)
Definition Itoa (i : Z) : string := NilEmpty.string_of_int (Z.to_int i).

Definition maxInt : Z := 9223372036854775807.
Definition minInt : Z := -9223372036854775808.

(** [strconv.Atoi]: an optional sign, then one decimal digit at least and
    nothing else, and a value that fits an [int] (64 bits). *)
Definition Atoi (s : string) : option Z :=
  let '(neg, body) :=
    match s with
    | String "+"%char r => (false, r)
    | String "-"%char r => (true, r)
    | _ => (false, s)
    end in
  match body with
  | EmptyString => None
  | _ =>
      match NilEmpty.uint_of_string body with
      | None => None
      | Some d =>
          let v := if neg then (- Z.of_uint d)%Z else Z.of_uint d in
          if bool_decide (minInt ≤ v ≤ maxInt)%Z then Some v else None
      end
  end.

(** [strings.Split(s, sep)] for a separator [sep] of one byte: the pieces
    between the separators, one more than there are separators. *)
Fixpoint Split (s : string) (sep : ascii) : list string :=
  match s with
  | EmptyString => [EmptyString]
  | String a r =>
      if decide (a = sep) then EmptyString :: Split r sep
      else match Split r sep with
           | piece :: pieces => String a piece :: pieces
           | [] => [String a EmptyString]
           end
  end.

Definition validatePortRange (portRange : string) : bool :=
  let strs := Split portRange "-"%char in
  if decide (length strs ≠ 2) then false
  else forallb (λ str, bool_decide (is_Some (Atoi str))) strs.

(** *** Entries *)

Record Entry := mkEntry {
  IP : string;
  Port : Z;
  Protocol : string;
  EntrySetType : IPSetType
}.

(** [Entry.String]: a switch on the set type. *)
Definition Entry_String (e : Entry) : string :=
  if decide (typeName (EntrySetType e) = typeName HashIpPort) then
    IP e +:+ "," +:+ Protocol e +:+ ":" +:+ Itoa (Port e)
  else if decide (typeName (EntrySetType e) = typeName HashIp) then IP e
  else if decide (typeName (EntrySetType e) = typeName BitmapPort) then Itoa (Port e)
  else "".

(** *** [runner.CreateSet] and [runner.ListSets]

    [CreateSet] gets a pointer to the description and writes defaults into
    it: the description as it is left is part of the result, also when an
    error is returned. *)
Section runner_sets.
Context {S : Type}.
Variable exec : list string → S → (string * option error) * S.

Definition setHashSize (set : IPSet) (v : Z) : IPSet :=
  {| Name := Name set; SetType := SetType set; HashFamily := HashFamily set;
     HashSize := v; MaxElem := MaxElem set; PortRange := PortRange set |}.

Definition setMaxElem (set : IPSet) (v : Z) : IPSet :=
  {| Name := Name set; SetType := SetType set; HashFamily := HashFamily set;
     HashSize := HashSize set; MaxElem := v; PortRange := PortRange set |}.

Definition setHashFamily (set : IPSet) (v : string) : IPSet :=
  {| Name := Name set; SetType := SetType set; HashFamily := v;
     HashSize := HashSize set; MaxElem := MaxElem set; PortRange := PortRange set |}.

Definition setSetType (set : IPSet) (v : IPSetType) : IPSet :=
  {| Name := Name set; SetType := v; HashFamily := HashFamily set;
     HashSize := HashSize set; MaxElem := MaxElem set; PortRange := PortRange set |}.

Definition setPortRange (set : IPSet) (v : string) : IPSet :=
  {| Name := Name set; SetType := SetType set; HashFamily := HashFamily set;
     HashSize := HashSize set; MaxElem := MaxElem set; PortRange := v |}.

Definition isHashType (set : IPSet) : bool :=
  bool_decide (typeName (SetType set) = typeName HashIp)
  || bool_decide (typeName (SetType set) = typeName HashIpPort).

Definition isBitmapPort (set : IPSet) : bool :=
  bool_decide (typeName (SetType set) = typeName BitmapPort).

(** The arguments [createSet] builds once the port range, if any, has
    passed. *)
Definition createArgs (set : IPSet) (ignoreExistErr : bool) : list string :=
  ["create"; Name set; typeName (SetType set)]
  ++ (if isHashType set
      then ["family"; HashFamily set; "hashsize"; Itoa (HashSize set);
            "maxelem"; Itoa (MaxElem set)]
      else [])
  ++ (if isBitmapPort set then ["range"; PortRange set] else [])
  ++ (if ignoreExistErr then ["-exist"] else []).

Definition runner_createSet (set : IPSet) (ignoreExistErr : bool) (s : S)
    : (IPSet * option error) * S :=
  let set1 :=
    if isBitmapPort set && bool_decide (String.length (PortRange set) = 0)
    then setPortRange set DefaultPortRange else set in
  if isBitmapPort set1 && negb (validatePortRange (PortRange set1)) then
    ((set1, Some ("invalid port range for bitmap:port type ip set: "
                  +:+ PortRange set1 +:+ ", expect: a-b")), s)
  else
    let '((_, err), s1) := exec (IPSetCmd :: createArgs set1 ignoreExistErr) s in
    match err with
    | Some e => ((set1, Some ("error creating ipset " +:+ Name set1 +:+ ", error: " +:+ e)), s1)
    | None => ((set1, None), s1)
    end.

Definition runner_CreateSet (set : IPSet) (ignoreExistErr : bool) (s : S)
    : (IPSet * option error) * S :=
  let set1 := if decide (HashSize set = 0%Z) then setHashSize set 1024 else set in
  let set2 := if decide (MaxElem set1 = 0%Z) then setMaxElem set1 65536 else set1 in
  let set3 := if decide (HashFamily set2 = "")
              then setHashFamily set2 ProtocolFamilyIPV4 else set2 in
  if bool_decide (String.length (HashFamily set3) ≠ 0)
     && bool_decide (HashFamily set3 ≠ ProtocolFamilyIPV4)
     && bool_decide (HashFamily set3 ≠ ProtocolFamilyIPV6)
  then
    ((set3, Some ("Currently supported protocol families are: inet and inet6, "
                  +:+ HashFamily set3 +:+ " is not supported")), s)
  else
    let set4 := if decide (String.length (typeName (SetType set3)) = 0)
                then setSetType set3 HashIpPort else set3 in
    if negb (IsValidIPSetType (SetType set4)) then
      ((set4, Some ("Currently supported ipset types are: "
                    +:+ "[hash:ip,port hash:ip bitmap:port], "
                    +:+ typeName (SetType set4) +:+ " is not supported")), s)
    else runner_createSet set4 ignoreExistErr s.

Definition runner_ListSets (s : S) : (list string * option error) * S :=
  let '((out, err), s1) := exec [IPSetCmd; "list"; "-n"] s in
  match err with
  | Some e => (([], Some ("error listing all sets, error: " +:+ e)), s1)
  | None => ((Split out "010"%char, None), s1)
  end.
End runner_sets.

(** The byte [c] occurs in [s]. *)
Fixpoint occurs (c : ascii) (s : string) : bool :=
  match s with
  | EmptyString => false
  | String a r => bool_decide (a = c) || occurs c r
  end.

(** A description that passes the checks of [CreateSet]: a protocol family
    that is unset or known, a set type that is unset or known, and, for a
    port set, a port range that is unset or well formed. *)
Definition validDescription (set : IPSet) : bool :=
  bool_decide (HashFamily set ∈ [""; ProtocolFamilyIPV4; ProtocolFamilyIPV6])
  && bool_decide (typeName (SetType set)
                  ∈ [""; typeName HashIpPort; typeName HashIp; typeName BitmapPort])
  && (negb (bool_decide (typeName (SetType set) = typeName BitmapPort))
      || bool_decide (PortRange set = "")
      || validatePortRange (PortRange set)).

(** The description as [CreateSet] has it after its three defaults, after
    its default for the set type, and as [createSet] has it after its
    default for the port range. *)
Definition filled (set : IPSet) : IPSet :=
  {| Name := Name set;
     SetType := SetType set;
     HashFamily := if decide (HashFamily set = "") then ProtocolFamilyIPV4
                   else HashFamily set;
     HashSize := if decide (HashSize set = 0%Z) then 1024%Z else HashSize set;
     MaxElem := if decide (MaxElem set = 0%Z) then 65536%Z else MaxElem set;
     PortRange := PortRange set |}.

Definition typed (set : IPSet) : IPSet :=
  {| Name := Name set;
     SetType := if decide (String.length (typeName (SetType set)) = 0)
                then HashIpPort else SetType set;
     HashFamily := HashFamily set;
     HashSize := HashSize set;
     MaxElem := MaxElem set;
     PortRange := PortRange set |}.

Definition ranged (set : IPSet) : IPSet :=
  {| Name := Name set;
     SetType := SetType set;
     HashFamily := HashFamily set;
     HashSize := HashSize set;
     MaxElem := MaxElem set;
     PortRange := if isBitmapPort set && bool_decide (String.length (PortRange set) = 0)
                  then DefaultPortRange else PortRange set |}.

(** [exec], with every command line it is given kept in a list next to the
    state. *)
Definition logged {S : Type} (exec : list string → S → (string * option error) * S)
    : list string → S * list (list string)
      → (string * option error) * (S * list (list string)) :=
  λ args st, let '(r, s1) := exec args st.1 in (r, (s1, st.2 ++ [args])).

(** An [exec] that always succeeds with the given output, over no state. *)
Definition execOk (out : string) : list string → unit → (string * option error) * unit :=
  λ _ s, ((out, None), s).

(** The [CreateSet] method of a handle.  It is kept apart from the entry
    methods of [Interface] above. *)
Record Creator (S : Type) := mkCreator {
  CreateSet : IPSet → bool → S → (IPSet * option error) * S
}.
Arguments CreateSet {S} _ _ _ _.

(** *** The no-op fake of package [testing] *)
Definition FakeIPSet : Interface unit :=
  {| AddEntry := λ _ _ _ s, (None, s);
     DelEntry := λ _ _ s, (None, s);
     ListEntries := λ _ s, (([], None), s) |}.

End ipset.

(** ** Package [pkg/proxy/ipvs] *)

Module ipvs.
Import ipset.

(** What [glog] is asked to write, and at which level.  The texts of the
    source are kept as constructors with their arguments. *)
Inductive Level := ErrorLevel | V3.

Inductive Message :=
  | FailedToList (err : error)
  | FailedToDelete (entry set : string) (err : error)
  | SuccessfullyDelete (entry set : string)
  | FailedToAdd (entry set : string) (err : error)
  | SuccessfullyAdd (entry set : string).

(** The world a reconciliation pass runs in: the state behind the handle
    and the log written so far. *)
Record World (S : Type) := mkWorld {
  store : S;
  glog : list (Level * Message)
}.
Arguments mkWorld {S} _ _.
Arguments store {S} _.
Arguments glog {S} _.

(** A small state monad over the world. *)
Definition M (S A : Type) : Type := World S → A * World S.

Definition ret {S A} (a : A) : M S A := λ w, (a, w).

Definition bind {S A B} (m : M S A) (k : A → M S B) : M S B :=
  λ w, let '(a, w1) := m w in k a w1.

Notation "'let*' x ':=' m 'in' k" := (bind m (λ x, k))
  (at level 10, x name, m at level 200, k at level 200).
Notation "m ;;; k" := (bind m (λ _, k))
  (at level 100, right associativity).

(** A call on the handle. *)
Definition call {S A} (f : S → A * S) : M S A :=
  λ w, let '(a, s1) := f (store w) in (a, mkWorld s1 (glog w)).

Definition Errorf {S} (msg : Message) : M S unit :=
  λ w, (tt, mkWorld (store w) (glog w ++ [(ErrorLevel, msg)])).

Definition Infof {S} (lvl : Level) (msg : Message) : M S unit :=
  λ w, (tt, mkWorld (store w) (glog w ++ [(lvl, msg)])).

(** [for _, entry := range entries { body }]. *)
Fixpoint forRange {S A} (entries : list A) (body : A → M S unit) : M S unit :=
  match entries with
  | [] => ret tt
  | entry :: rest => body entry ;;; forRange rest body
  end.

(** The ipvs [IPSet]: the embedded set description, the desired entries and
    the handle. *)
Record IPSet (S : Type) := mkIPSet {
  IPSet_ : ipset.IPSet;
  activeEntries : sets.String;
  handle : Interface S
}.
Arguments mkIPSet {S} _ _ _.
Arguments IPSet_ {S} _.
Arguments activeEntries {S} _.
Arguments handle {S} _.

Definition NewIPSet {S} (h : Interface S) (nm : string) (setType : IPSetType)
    (isIPv6 : bool) : IPSet S :=
  let hashFamily := if isIPv6 then ProtocolFamilyIPV6 else ProtocolFamilyIPV4 in
  {| IPSet_ := {| Name := nm; SetType := setType; HashFamily := hashFamily;
                  HashSize := 0; MaxElem := 0; PortRange := "" |};
     activeEntries := sets.NewString;
     handle := h |}.

Definition isEmpty {S} (set : IPSet S) : M S bool :=
  let* r := call (ListEntries (handle set) (Name (IPSet_ set))) in
  ret (bool_decide (length r.1 = 0)).

Definition resetEntries {S} (set : IPSet S) : IPSet S :=
  {| IPSet_ := IPSet_ set; activeEntries := sets.NewString; handle := handle set |}.

(** The body of the "clean legacy entries" loop. *)
Definition delLegacy {S} (set : IPSet S) (entry : string) : M S unit :=
  let* err := call (DelEntry (handle set) entry (Name (IPSet_ set))) in
  match err with
  | Some e => Errorf (FailedToDelete entry (Name (IPSet_ set)) e)
  | None => Infof V3 (SuccessfullyDelete entry (Name (IPSet_ set)))
  end.

(** The body of the "create active entries" loop.  Success is written with
    [glog.Errorf] too, as in the source. *)
Definition addActive {S} (set : IPSet S) (entry : string) : M S unit :=
  let* err := call (AddEntry (handle set) entry (Name (IPSet_ set)) true) in
  match err with
  | Some e => Errorf (FailedToAdd entry (Name (IPSet_ set)) e)
  | None => Errorf (SuccessfullyAdd entry (Name (IPSet_ set)))
  end.

Definition syncIPSetEntries {S} (set : IPSet S) : M S unit :=
  let* r := call (ListEntries (handle set) (Name (IPSet_ set))) in
  match r.2 with
  | Some err => Errorf (FailedToList err)
  | None =>
      let appliedEntries := r.1 in
      let currentIPSetEntries := foldl sets.Insert sets.NewString appliedEntries in
      if negb (sets.Equal (activeEntries set) currentIPSetEntries) then
        forRange (sets.List (sets.Difference currentIPSetEntries (activeEntries set)))
                 (delLegacy set) ;;;
        forRange (sets.List (sets.Difference (activeEntries set) currentIPSetEntries))
                 (addActive set)
      else ret tt
  end.

(** *** Observing the calls made on a handle

    [recording h] behaves as [h] and also appends every call, with the
    error it returned, to a trace kept next to the state of [h]. *)
Inductive Call :=
  | CallListEntries (set : string)
  | CallDelEntry (entry set : string)
  | CallAddEntry (entry set : string) (ignoreExistErr : bool).

Abbreviation Trace := (list (Call * option error)).

Definition recording {S} (h : Interface S) : Interface (S * Trace) :=
  {| AddEntry := λ entry set ign st,
       let '(err, s1) := AddEntry h entry set ign st.1 in
       (err, (s1, st.2 ++ [(CallAddEntry entry set ign, err)]));
     DelEntry := λ entry set st,
       let '(err, s1) := DelEntry h entry set st.1 in
       (err, (s1, st.2 ++ [(CallDelEntry entry set, err)]));
     ListEntries := λ set st,
       let '(r, s1) := ListEntries h set st.1 in
       (r, (s1, st.2 ++ [(CallListEntries set, r.2)])) |}.

Definition recorded {S} (set : IPSet S) : IPSet (S * Trace) :=
  {| IPSet_ := IPSet_ set; activeEntries := activeEntries set;
     handle := recording (handle set) |}.

(** The calls one [syncIPSetEntries] makes from the store state [s], and
    the store state and log it leaves. *)
Definition syncRun {S} (set : IPSet S) (s : S) : World (S * Trace) :=
  (syncIPSetEntries (recorded set) (mkWorld (s, []) [])).2.

Definition callsOf {S} (w : World (S * Trace)) : list Call := (store w).2.*1.

(** *** Two stores for examples: one that works, one whose additions fail *)

(** The members of one set, in listing order. *)
Definition memStore : Interface (list string) :=
  {| AddEntry := λ entry _ _ s, (None, s ++ [entry]);
     DelEntry := λ entry _ s, (None, filter (λ e, e ≠ entry) s);
     ListEntries := λ _ s, ((s, None), s) |}.

Definition addFails : Interface (list string) :=
  {| AddEntry := λ entry _ _ s, (Some "set is full", s);
     DelEntry := λ entry _ s, (None, filter (λ e, e ≠ entry) s);
     ListEntries := λ _ s, ((s, None), s) |}.

Definition listFails : Interface (list string) :=
  {| AddEntry := λ entry _ _ s, (None, s ++ [entry]);
     DelEntry := λ entry _ s, (None, filter (λ e, e ≠ entry) s);
     ListEntries := λ _ s, (([], Some "kernel error"), s) |}.

(** The line a call leaves in the log, given the error it returned: every
    deletion and addition leaves one, a listing only when it fails. *)
Definition logOf (c : Call * option error) : option (Level * Message) :=
  match c with
  | (CallListEntries _, Some e) => Some (ErrorLevel, FailedToList e)
  | (CallListEntries _, None) => None
  | (CallDelEntry entry set, Some e) => Some (ErrorLevel, FailedToDelete entry set e)
  | (CallDelEntry entry set, None) => Some (V3, SuccessfullyDelete entry set)
  | (CallAddEntry entry set _, Some e) => Some (ErrorLevel, FailedToAdd entry set e)
  | (CallAddEntry entry set _, None) => Some (ErrorLevel, SuccessfullyAdd entry set)
  end.

(** The entry a call is about, if any. *)
Definition entryOf (c : Call) : option string :=
  match c with
  | CallListEntries _ => None
  | CallDelEntry entry _ => Some entry
  | CallAddEntry entry _ _ => Some entry
  end.

(** The calls a diff of [live] against [desired] asks for on the set [nm]:
    a deletion for each removal, then an addition for each addition. *)
Definition delCalls (nm : string) (entries : list string) : list Call :=
  (λ entry, CallDelEntry entry nm) <$> entries.

Definition addCalls (nm : string) (entries : list string) : list Call :=
  (λ entry, CallAddEntry entry nm true) <$> entries.

(** A set named KUBE-X with the given desired entries, on the given
    handle. *)
Definition kubeX {S} (h : Interface S) (desired : sets.String) : IPSet S :=
  {| IPSet_ := {| Name := "KUBE-X"; SetType := HashIp; HashFamily := ProtocolFamilyIPV4;
                  HashSize := 0; MaxElem := 0; PortRange := "" |};
     activeEntries := desired;
     handle := h |}.

(** *** [ensureIPSets]

    Each set comes with the [CreateSet] method of its handle.  [CreateSet]
    is given a pointer to the embedded description, so the sets are part of
    the result, with what [CreateSet] wrote into them.  The line written to
    the log on failure is returned as well. *)
Inductive EnsureMessage :=
  | FailedToEnsure (set : ipset.IPSet) (err : error).

Definition withDescription {S} (set : IPSet S) (desc : ipset.IPSet) : IPSet S :=
  {| IPSet_ := desc; activeEntries := activeEntries set; handle := handle set |}.

Fixpoint ensureIPSets {S} (ipSets : list (IPSet S * Creator S)) (s : S)
    : (list (IPSet S) * option error * list EnsureMessage) * S :=
  match ipSets with
  | [] => (([], None, []), s)
  | (set, h) :: rest =>
      let '((desc, err), s1) := CreateSet h (IPSet_ set) true s in
      match err with
      | Some e =>
          ((withDescription set desc :: rest.*1, Some e, [FailedToEnsure desc e]), s1)
      | None =>
          let '((sets, r, lg), s2) := ensureIPSets rest s1 in
          ((withDescription set desc :: sets, r, lg), s2)
      end
  end.

(** The [CreateSet] of the [runner] on a logging [exec], and a set on it. *)
Definition runnerCreator {S} (exec : list string → S → (string * option error) * S)
    : Creator (S * list (list string)) :=
  {| CreateSet := runner_CreateSet (logged exec) |}.

Definition describe (nm : string) (t : IPSetType) : ipset.IPSet :=
  {| Name := nm; SetType := t; HashFamily := ""; HashSize := 0; MaxElem := 0;
     PortRange := "" |}.

Definition onRunner (exec : list string → unit → (string * option error) * unit)
    (desc : ipset.IPSet) : IPSet (unit * list (list string)) :=
  {| IPSet_ := desc; activeEntries := ∅;
     handle := runner (logged exec) (λ _, []) |}.

End ipvs.

(** * Properties of [pkg/proxy] *)

Module proxy_proofs.
Import proxy.

(** ** [reflect.DeepEqual] decides equality of snapshots *)

Lemma mapDeepEqual_spec (a b : GoLabels) : mapDeepEqual a b = true ↔ a = b.
Proof.
  destruct a as [m1|], b as [m2|]; simpl; try (split; [done|congruence]).
  rewrite andb_true_iff, !bool_decide_eq_true. split.
  - intros [Hsz Hall]. f_equal. apply map_subseteq_size_eq; [|lia].
    apply map_subseteq_spec. intros k v Hk. exact (Hall k v Hk).
  - intros [= ->]. split; [done|]. by intros k v Hk.
Qed.

Lemma infoDeepEqual_spec (a b : BaseNodeInfo) : infoDeepEqual a b = true ↔ a = b.
Proof.
  unfold infoDeepEqual. rewrite andb_true_iff, bool_decide_eq_true, mapDeepEqual_spec.
  destruct a, b; simpl. split; [intros [-> ->]; done | intros [= -> ->]; done].
Qed.

Lemma DeepEqual_spec (a b : Node) : DeepEqual a b = true ↔ a = b.
Proof.
  destruct a as [x|], b as [y|]; simpl; try (split; [done|congruence]).
  rewrite infoDeepEqual_spec. split; congruence.
Qed.

Lemma DeepEqual_refl (a : Node) : DeepEqual a a = true.
Proof. by apply DeepEqual_spec. Qed.

Lemma DeepEqual_false (a b : Node) : DeepEqual a b = false ↔ a ≠ b.
Proof.
  rewrite <-DeepEqual_spec. destruct (DeepEqual a b); split; congruence.
Qed.

(** ** [Update] *)

Lemma changeFor_previous key prev its :
  previous (changeFor key prev its).1 = accumulated key prev its.
Proof. unfold changeFor, accumulated. by destruct (its !! key). Qed.

Lemma setCurrent_changeFor key prev cur its :
  setCurrent key cur (changeFor key prev its)
  = ({| previous := accumulated key prev its; current := convertNode cur |},
     <[key := {| previous := accumulated key prev its; current := convertNode cur |}]> its).
Proof.
  unfold setCurrent. rewrite changeFor_previous. f_equal.
  unfold changeFor. destruct (its !! key); simpl; [done|].
  by rewrite insert_insert_eq.
Qed.

Lemma collapse_updated key prev cur its :
  collapse key (setCurrent key cur (changeFor key prev its)) = updated key prev cur its.
Proof.
  rewrite setCurrent_changeFor. unfold collapse, updated. simpl.
  destruct (DeepEqual _ _); [|done]. by rewrite delete_insert_eq.
Qed.

Lemma Update_unfold prev cur node ect mt :
  changedNode prev cur = Some node →
  Update prev cur ect mt
  = (bool_decide (0 < size (updated (Name node) prev cur (items ect))),
     {| items := updated (Name node) prev cur (items ect) |},
     {| NodeChangesTotal := S (NodeChangesTotal mt);
        NodeChangesPending := size (updated (Name node) prev cur (items ect)) |}).
Proof. intros Hn. unfold Update. rewrite Hn. by rewrite collapse_updated. Qed.

Lemma updated_lookup key prev cur its :
  updated key prev cur its !! key
  = if DeepEqual (accumulated key prev its) (convertNode cur) then None
    else Some {| previous := accumulated key prev its; current := convertNode cur |}.
Proof.
  unfold updated. destruct (DeepEqual _ _).
  - apply lookup_delete_eq.
  - apply lookup_insert_eq.
Qed.

Lemma updated_lookup_ne key k prev cur its :
  key ≠ k → updated key prev cur its !! k = its !! k.
Proof.
  intros Hne. unfold updated. destruct (DeepEqual _ _).
  - by apply lookup_delete_ne.
  - by apply lookup_insert_ne.
Qed.

Lemma size_pos_nonempty {A} (m : gmap string A) : 0 < size m ↔ m ≠ ∅.
Proof.
  rewrite <-map_size_non_empty_iff. lia.
Qed.

(** C9: [Update(nil, nil)] is no error and no change: it returns false and
    leaves the pending map, and the metrics, as they were. *)
Theorem Update_nil_nil (ect : NodeChangeTracker) (mt : Metrics) :
  Update None None ect mt = (false, ect, mt).
Proof. reflexivity. Qed.

(** On a fresh tracker, [Update(n0, n1)] followed by [Update(n1, n2)] for
    one node leaves the record [(n0, n2)], or none when [n2] is [n0]
    again. *)
Lemma Update_twice_fresh (n0 n1 n2 : v1Node) (mt : Metrics) :
  Name n0 = Name n1 → Name n1 = Name n2 →
  let r1 := Update (Some n0) (Some n1) NewNodeChangeTracker mt in
  let r2 := Update (Some n1) (Some n2) r1.1.2 r1.2 in
  items r2.1.2 !! Name n2
  = if DeepEqual (convertNode (Some n0)) (convertNode (Some n2)) then None
    else Some {| previous := convertNode (Some n0); current := convertNode (Some n2) |}.
Proof.
  intros H01 H12 r1 r2. subst r1 r2.
  rewrite (Update_unfold (Some n0) (Some n1) n1) by done.
  rewrite (Update_unfold (Some n1) (Some n2) n2) by done.
  unfold NewNodeChangeTracker. cbn [fst snd items]. rewrite updated_lookup.
  assert (accumulated (Name n2) (Some n1) (updated (Name n1) (Some n0) (Some n1) ∅)
          = convertNode (Some n0)) as ->; [|done].
  unfold accumulated at 1. rewrite <-H12, updated_lookup.
  unfold accumulated. rewrite lookup_empty.
  destruct (DeepEqual (convertNode (Some n0)) (convertNode (Some n1))) eqn:E; [|done].
  apply DeepEqual_spec in E. by rewrite E.
Qed.

(** C5, as stated, fails in its example: when the second update brings the
    node back to its first state, [Update(n0, n1)] followed by
    [Update(n1, n0)] on a fresh tracker leaves no record at all, not the
    record [(n0, n0)]. *)
Lemma Update_twice_counterexample :
  ¬ (∀ (n0 n1 n2 : v1Node) (mt : Metrics),
       Name n0 = Name n1 → Name n1 = Name n2 →
       let r1 := Update (Some n0) (Some n1) NewNodeChangeTracker mt in
       let r2 := Update (Some n1) (Some n2) r1.1.2 r1.2 in
       items r2.1.2 !! Name n2
       = Some {| previous := convertNode (Some n0); current := convertNode (Some n2) |}).
Proof.
  intros H. specialize (H nodeA nodeA' nodeA metrics0 eq_refl eq_refl).
  vm_compute in H. discriminate H.
Qed.

(** C5, amended.  The node a call is about is [current] when it is there
    and [previous] otherwise.  When no record is pending for that node, the
    record created holds the converted [previous] of this call; a record
    that is pending keeps the [previous] it has; in both cases [current]
    becomes the converted [current] of this call, and the record stays
    unless its two sides are then deeply equal, in which case it is
    deleted.  Records of other nodes are untouched, and the result is true
    exactly when the pending map is not empty afterwards.  So on a fresh
    tracker [Update(n0, n1)] followed by [Update(n1, n2)] leaves the record
    [(n0, n2)], or no record when [n2] is deeply equal to [n0]. *)
Theorem Update_first_previous_latest_current :
  (∀ (prev cur : option v1Node) (node : v1Node) (ect : NodeChangeTracker) (mt : Metrics),
     cur = Some node ∨ (cur = None ∧ prev = Some node) →
     let res := Update prev cur ect mt in
     let key := Name node in
     (items ect !! key = None →
        (changeFor key prev (items ect)).2 !! key
          = Some {| previous := convertNode prev; current := None |}
        ∧ items res.1.2 !! key
          = if DeepEqual (convertNode prev) (convertNode cur) then None
            else Some {| previous := convertNode prev; current := convertNode cur |})
     ∧ (∀ r0, items ect !! key = Some r0 →
          items res.1.2 !! key
          = if DeepEqual (previous r0) (convertNode cur) then None
            else Some {| previous := previous r0; current := convertNode cur |})
     ∧ (∀ r, items res.1.2 !! key = Some r → current r = convertNode cur)
     ∧ (∀ k, k ≠ key → items res.1.2 !! k = items ect !! k)
     ∧ (res.1.1 = true ↔ items res.1.2 ≠ ∅))
  ∧ (∀ (n0 n1 n2 : v1Node) (mt : Metrics),
       Name n0 = Name n1 → Name n1 = Name n2 →
       let r1 := Update (Some n0) (Some n1) NewNodeChangeTracker mt in
       let r2 := Update (Some n1) (Some n2) r1.1.2 r1.2 in
       items r2.1.2 !! Name n2
       = if DeepEqual (convertNode (Some n0)) (convertNode (Some n2)) then None
         else Some {| previous := convertNode (Some n0);
                      current := convertNode (Some n2) |}).
Proof.
  split; [|apply Update_twice_fresh].
  intros prev cur node ect mt Hside res key.
  assert (changedNode prev cur = Some node) as Hn.
  { by destruct Hside as [->|[-> ->]]. }
  subst res. rewrite (Update_unfold _ _ _ _ _ Hn). simpl.
  fold key. split; [|split; [|split; [|split]]].
  - intros Hnone. split.
    + unfold changeFor. rewrite Hnone. simpl. apply lookup_insert_eq.
    + rewrite updated_lookup. unfold accumulated. by rewrite Hnone.
  - intros r0 Hr0. rewrite updated_lookup. unfold accumulated. by rewrite Hr0.
  - intros r. rewrite updated_lookup. destruct (DeepEqual _ _); [done|].
    by intros [= <-].
  - intros k Hk. by apply updated_lookup_ne.
  - rewrite bool_decide_eq_true. apply size_pos_nonempty.
Qed.

(** A deletion reported to a fresh tracker is recorded under the name of
    the deleted node, and the call returns true; an addition followed by
    two relabellings leaves the record from nothing to the last labels. *)
Lemma Update_first_previous_latest_current_witness :
  (let res := Update (Some nodeA) None NewNodeChangeTracker metrics0 in
   items res.1.2 !! "testNode1"
     = Some {| previous := convertNode (Some nodeA); current := None |}
   ∧ res.1.1 = true)
  ∧ (let r1 := Update (Some nodeA) (Some nodeA') NewNodeChangeTracker metrics0 in
     let r2 := Update (Some nodeA') (Some nodeA'') r1.1.2 r1.2 in
     items r2.1.2 !! "testNode1"
     = Some {| previous := convertNode (Some nodeA);
               current := convertNode (Some nodeA'') |}).
Proof.
  split.
  - pose proof (proj1 Update_first_previous_latest_current (Some nodeA) None nodeA
                  NewNodeChangeTracker metrics0 (or_intror (conj eq_refl eq_refl)))
      as (Hnew & _ & _ & _ & Hret).
    split.
    + exact (proj2 (Hnew eq_refl)).
    + apply Hret. intros Hempty.
      pose proof (proj2 (Hnew eq_refl)) as Hl. rewrite Hempty in Hl. discriminate Hl.
  - exact (proj2 Update_first_previous_latest_current nodeA nodeA' nodeA'' metrics0
             eq_refl eq_refl).
Defined.

(** C4, as stated, fails: with an addition of the node pending, the update
    [Update(n, n)] leaves the record [(nil, n)] in place. *)
Lemma Update_same_node_counterexample :
  ¬ (∀ (ect : NodeChangeTracker) (n n' : v1Node) (mt : Metrics),
       Name n' = Name n → Labels n' = Labels n →
       items (Update (Some n) (Some n') ect mt).1.2 !! Name n = None).
Proof.
  intros H. specialize (H addedA nodeA nodeA metrics0 eq_refl eq_refl).
  vm_compute in H. discriminate H.
Qed.

(** C4, amended: [Update(n, n')] with [n'] of the same name and the same
    labels as [n] creates no record when none is pending for that name, and
    then leaves the pending map as it was; when a record is pending, it is
    deleted exactly when the previous snapshot it has accumulated is deeply
    equal to the new current one, and otherwise stays with that previous
    snapshot. *)
Theorem Update_same_node (n n' : v1Node) (ect : NodeChangeTracker) (mt : Metrics) :
  Name n' = Name n → Labels n' = Labels n →
  let res := Update (Some n) (Some n') ect mt in
  (items ect !! Name n = None → items res.1.2 = items ect)
  ∧ (∀ r, items ect !! Name n = Some r →
       items res.1.2 !! Name n
       = if DeepEqual (previous r) (convertNode (Some n')) then None
         else Some {| previous := previous r; current := convertNode (Some n') |}).
Proof.
  intros Hname Hlabels res. subst res.
  rewrite (Update_unfold (Some n) (Some n') n') by done.
  cbn [fst snd items]. rewrite Hname. split.
  - intros Hnone. unfold updated, accumulated. rewrite Hnone.
    assert (convertNode (Some n) = convertNode (Some n')) as ->.
    { simpl. by rewrite Hname, Hlabels. }
    rewrite DeepEqual_refl. by apply delete_id.
  - intros r Hr. rewrite updated_lookup. unfold accumulated. by rewrite Hr.
Qed.

Lemma Update_same_node_witness :
  items (Update (Some nodeA) (Some nodeA) NewNodeChangeTracker metrics0).1.2 = ∅.
Proof.
  exact (proj1 (Update_same_node nodeA nodeA NewNodeChangeTracker metrics0
                  eq_refl eq_refl) eq_refl).
Defined.

(** [reflect.DeepEqual] tells a nil map from an empty one: an update from no
    labels (nil) to no labels (empty map) is recorded as a change. *)
Lemma Update_nil_to_empty_labels :
  items (Update (Some {| Name := "n"; Labels := None |})
                (Some {| Name := "n"; Labels := Some ∅ |})
                NewNodeChangeTracker metrics0).1.2 !! "n"
  = Some {| previous := Some {| name := "n"; labels := None |};
            current := Some {| name := "n"; labels := Some ∅ |} |}.
Proof. reflexivity. Qed.

(** ** The records of a tracker are keyed by the node they are about *)

Lemma NewNodeChangeTracker_wf : tracker_wf NewNodeChangeTracker.
Proof. apply map_Forall_empty. Qed.

Lemma convertNode_name (o : option v1Node) (p : BaseNodeInfo) :
  convertNode o = Some p → ∃ n, o = Some n ∧ NodeName p = Name n.
Proof. destruct o as [n|]; [|done]. intros [= <-]. by exists n. Qed.

Lemma Update_wf (prev cur : option v1Node) (ect : NodeChangeTracker) (mt : Metrics) :
  sameIdentity prev cur → tracker_wf ect → tracker_wf (Update prev cur ect mt).1.2.
Proof.
  intros Hsame Hwf. destruct (changedNode prev cur) as [node|] eqn:Hn.
  2:{ unfold Update. by rewrite Hn. }
  rewrite (Update_unfold _ _ _ _ _ Hn). cbn [fst snd].
  unfold tracker_wf in *. cbn [items]. unfold updated.
  destruct (DeepEqual _ _).
  { by apply map_Forall_delete. }
  apply map_Forall_insert_2; [|done].
  assert (∀ c, convertNode cur = Some c → NodeName c = Name node) as Hcur.
  { intros c Hc. apply convertNode_name in Hc as (n & -> & ->).
    simpl in Hn. by injection Hn as ->. }
  split; cbn [previous current]; [|done].
  intros p Hp. unfold accumulated in Hp.
  destruct (items ect !! Name node) as [r|] eqn:Hr.
  - pose proof (map_Forall_lookup_1 _ _ _ _ Hwf Hr) as [Hprev _]. by apply Hprev.
  - apply convertNode_name in Hp as (n & -> & ->).
    destruct cur as [c|]; simpl in Hn.
    + injection Hn as <-. by apply Hsame.
    + by injection Hn as ->.
Qed.

Lemma runUpdates_wf (evs : list (option v1Node * option v1Node))
    (st : NodeChangeTracker * Metrics) :
  Forall (λ ev, sameIdentity ev.1 ev.2) evs → tracker_wf st.1 →
  tracker_wf (runUpdates evs st).1.
Proof.
  intros Hevs. revert st. induction Hevs as [|ev evs Hev _ IH]; intros st Hwf; [done|].
  apply IH. cbn [fst]. by apply Update_wf.
Qed.

Lemma addedA_wf : tracker_wf addedA.
Proof.
  apply map_Forall_singleton. split; cbn [previous current]; [done|].
  by intros c [= <-].
Qed.

(** ** [apply] *)

Lemma applyChange_lookup_untouched (em : NodeMap) (r : nodeChange) (k : string) :
  ¬ touches r k → applyChange em r !! k = em !! k.
Proof.
  intros Hno. unfold applyChange, add, remove.
  destruct (current r) as [c|] eqn:Hc, (previous r) as [p|] eqn:Hp.
  - rewrite lookup_insert_ne, lookup_delete_ne; [done| |];
      intros <-; apply Hno; [left|right]; eauto.
  - rewrite lookup_insert_ne; [done|]. intros <-. apply Hno. right; eauto.
  - rewrite lookup_delete_ne; [done|]. intros <-. apply Hno. left; eauto.
  - done.
Qed.

Lemma keyed_touches (k k' : string) (r : nodeChange) :
  keyed k r → touches r k' → k' = k.
Proof.
  intros [Hp Hc] [(p & Hprev & <-)|(c & Hcur & <-)]; [by apply Hp | by apply Hc].
Qed.

(** Remove-then-insert of a record of node [k] acts on the entry [k] as
    [effect] says. *)
Lemma applyChange_lookup_keyed (em : NodeMap) (r : nodeChange) (k : string) :
  keyed k r → applyChange em r !! k = effect r (em !! k).
Proof.
  intros [Hp Hc]. unfold applyChange, add, remove, effect.
  destruct (current r) as [c|] eqn:Hcur.
  - rewrite <-(Hc c eq_refl). apply lookup_insert_eq.
  - destruct (previous r) as [p|] eqn:Hprev; [|done].
    rewrite <-(Hp p eq_refl). apply lookup_delete_eq.
Qed.

Lemma applyRange_cons (kc : string * nodeChange) (l : list (string * nodeChange))
    (em : NodeMap) :
  applyRange (kc :: l) em = applyRange l (applyChange em kc.2).
Proof. reflexivity. Qed.

(** Frame: an entry no pending record touches is left as it is, in whatever
    order the records are taken. *)
Lemma applyRange_frame (l : list (string * nodeChange)) (em : NodeMap) (k : string) :
  Forall (λ kc, ¬ touches kc.2 k) l → applyRange l em !! k = em !! k.
Proof.
  intros Hl. revert em. induction Hl as [|kc l Hkc _ IH]; intros em; [done|].
  rewrite applyRange_cons, IH. by apply applyChange_lookup_untouched.
Qed.

Lemma applyRange_lookup_notin (l : list (string * nodeChange)) (em : NodeMap)
    (k : string) :
  Forall (λ kc, keyed kc.1 kc.2) l → k ∉ l.*1 → applyRange l em !! k = em !! k.
Proof.
  intros Hkeyed Hnotin. apply applyRange_frame.
  apply Forall_forall. intros [k' r] Hin Htouch. simpl in Htouch.
  rewrite Forall_forall in Hkeyed. specialize (Hkeyed _ Hin). simpl in Hkeyed.
  apply Hnotin. rewrite (keyed_touches _ _ _ Hkeyed Htouch).
  apply list_elem_of_fmap. by exists (k', r).
Qed.

(** With one record per node, the entry of a node ends as the record of
    that node alone leaves it. *)
Lemma applyRange_lookup_in (l : list (string * nodeChange)) (em : NodeMap)
    (k : string) (r : nodeChange) :
  Forall (λ kc, keyed kc.1 kc.2) l → NoDup l.*1 → (k, r) ∈ l →
  applyRange l em !! k = effect r (em !! k).
Proof.
  intros Hkeyed. revert em. induction Hkeyed as [|[k1 r1] l Hk1 Hl IH]; intros em Hnd Hin.
  { by apply elem_of_nil in Hin. }
  rewrite fmap_cons in Hnd. apply NoDup_cons in Hnd as [Hfresh Hnd].
  rewrite applyRange_cons. cbn [fst snd] in *.
  apply elem_of_cons in Hin as [[= -> ->]|Hin].
  - rewrite applyRange_lookup_notin by done. by apply applyChange_lookup_keyed.
  - rewrite IH by done. f_equal. apply applyChange_lookup_untouched.
    intros Htouch. apply Hfresh. rewrite <-(keyed_touches _ _ _ Hk1 Htouch).
    apply list_elem_of_fmap. by exists (k, r).
Qed.

Lemma tracker_wf_order (c : NodeChangeTracker) (order : list (string * nodeChange)) :
  tracker_wf c → order ≡ₚ map_to_list (items c) →
  Forall (λ kc, keyed kc.1 kc.2) order ∧ NoDup order.*1.
Proof.
  intros Hwf Hperm. split.
  - rewrite Hperm. apply Forall_forall. intros [k r] Hin.
    apply elem_of_map_to_list in Hin. exact (map_Forall_lookup_1 _ _ _ _ Hwf Hin).
  - rewrite Hperm. apply NoDup_fst_map_to_list.
Qed.

Lemma applyChange_stepLookup (em : NodeMap) (r : nodeChange) (k : string) :
  applyChange em r !! k = stepLookup r k (em !! k).
Proof.
  unfold applyChange, add, remove, stepLookup, NodeName.
  destruct (current r) as [c|], (previous r) as [p|].
  - rewrite lookup_insert. destruct (decide (name c = k)); [done|].
    rewrite lookup_delete. by destruct (decide (name p = k)).
  - rewrite lookup_insert. by destruct (decide (name c = k)).
  - rewrite lookup_delete. by destruct (decide (name p = k)).
  - done.
Qed.

Lemma applyRange_stepLookup (l : list (string * nodeChange)) (em : NodeMap) (k : string) :
  applyRange l em !! k = foldl (λ o kc, stepLookup kc.2 k o) (em !! k) l.
Proof.
  revert em. induction l as [|kc l IH]; intros em; [done|].
  rewrite applyRange_cons, IH. cbn [foldl]. by rewrite applyChange_stepLookup.
Qed.

(** C2, as stated, fails: a record is stored under the name of the current
    node and removed under the name of its previous snapshot.  After
    [Update(x, y)] with [x] named a and [y] named b, only b has a pending
    record, and [apply] removes the entry of a. *)
Lemma apply_affects_pending_counterexample :
  ¬ (∀ (prev cur : option v1Node) (em : NodeMap) (mt : Metrics) (k : string),
       let ect := (Update prev cur NewNodeChangeTracker mt).1.2 in
       items ect !! k = None →
       (apply em (Some ect) mt).1.1 !! k = em !! k).
Proof.
  intros H.
  specialize (H (Some nodeX) (Some nodeY)
                {[ "a" := newBaseNodeInfo (Name nodeX) (Labels nodeX) ]}
                metrics0 "a" eq_refl).
  vm_compute in H. discriminate H.
Qed.

(** C2, amended.  [apply] takes the pending records in some order; for each
    record it first removes the entry named by the record's previous
    snapshot (if there is one) and then sets the entry named by its current
    snapshot (if there is one) to that snapshot.  An entry that no pending
    record names is left as it was.  When every record is stored under the
    name of the node its snapshots are of, the entries affected are exactly
    those with a pending record: each ends as the current snapshot of its
    record, or absent when the record has a previous snapshot and no
    current one, whatever the order, and every entry without a pending
    record is unchanged.  The pending map is reset to empty and the gauge
    to zero. *)
Theorem apply_affects_pending (em : NodeMap) (c : NodeChangeTracker) (mt : Metrics)
    (order : list (string * nodeChange)) :
  order ≡ₚ map_to_list (items c) →
  let res := applyIn order em (Some c) mt in
  (∀ k, res.1.1 !! k = foldl (λ o kc, stepLookup kc.2 k o) (em !! k) order)
  ∧ (∀ k, (∀ k' r, items c !! k' = Some r →
             (∀ p, previous r = Some p → name p ≠ k)
             ∧ (∀ cu, current r = Some cu → name cu ≠ k)) →
          res.1.1 !! k = em !! k)
  ∧ (tracker_wf c →
       (∀ k r, items c !! k = Some r →
          res.1.1 !! k
          = match current r with
            | Some cu => Some cu
            | None => match previous r with Some _ => None | None => em !! k end
            end)
       ∧ (∀ k, items c !! k = None → res.1.1 !! k = em !! k))
  ∧ res.1.2 = Some NewNodeChangeTracker
  ∧ NodeChangesPending res.2 = 0.
Proof.
  intros Hperm res. subst res. cbn [applyIn fst snd].
  split; [intros k; apply applyRange_stepLookup|]. split; [|split; [|done]].
  - intros k Hno. apply applyRange_frame. apply Forall_forall.
    intros [k' r] Hin. rewrite Hperm in Hin. apply elem_of_map_to_list in Hin.
    destruct (Hno k' r Hin) as [Hp Hc].
    intros [(p & Hprev & Hk)|(cu & Hcur & Hk)]; [by apply (Hp p)|by apply (Hc cu)].
  - intros Hwf. destruct (tracker_wf_order c order Hwf Hperm) as [Hkeyed Hnd]. split.
    + intros k r Hr.
      assert ((k, r) ∈ order) as Hin by (rewrite Hperm; by apply elem_of_map_to_list).
      by rewrite (applyRange_lookup_in _ _ k r Hkeyed Hnd Hin).
    + intros k Hnone. apply applyRange_lookup_notin; [done|].
      rewrite Hperm. intros Hin. apply list_elem_of_fmap in Hin as ([k' r] & -> & Hin).
      apply elem_of_map_to_list in Hin. simpl in Hnone. congruence.
Qed.

Lemma mixedPending_wf : tracker_wf mixedPending.
Proof.
  apply runUpdates_wf; [|apply NewNodeChangeTracker_wf].
  repeat constructor; intros x y Hx Hy; simpl in *; simplify_eq; reflexivity.
Qed.

(** A relabelling, a deletion and an addition applied at once: the first
    node gets its new labels, the second is gone, the third is there, and
    the fourth, which has no pending record, is as before. *)
Lemma apply_affects_pending_witness :
  let res := apply mixedMap (Some mixedPending) metrics0 in
  res.1.1 !! "testNode1" = Some (newBaseNodeInfo (Name nodeA') (Labels nodeA'))
  ∧ res.1.1 !! "testNode2" = None
  ∧ res.1.1 !! "testNode3" = Some (newBaseNodeInfo (Name nodeC) (Labels nodeC))
  ∧ res.1.1 !! "testNode4" = Some (newBaseNodeInfo (Name nodeD) (Labels nodeD))
  ∧ res.1.2 = Some NewNodeChangeTracker.
Proof.
  intros res.
  pose proof (apply_affects_pending mixedMap mixedPending metrics0
                (map_to_list (items mixedPending)) (reflexivity _))
    as (_ & _ & Hwf & Hreset & _).
  destruct (Hwf mixedPending_wf) as [Hin Hout].
  split; [|split; [|split; [|split]]].
  - exact (Hin "testNode1" _ eq_refl).
  - exact (Hin "testNode2" _ eq_refl).
  - exact (Hin "testNode3" _ eq_refl).
  - exact (Hout "testNode4" eq_refl).
  - exact Hreset.
Defined.

(** The run of [TestBuildNodeMapAddRemoveUpdate]: four entries after the
    additions, then one, with the region label. *)
Lemma BuildNodeMapAddRemoveUpdate :
  size afterAdds.1.1 = 4
  ∧ size afterRemoves.1.1 = 1
  ∧ (afterRemoves.1.1 !! "testNode1"
       ≫= λ n, GetTopologyValue n "failure-domain.beta.kubernetes.io/region")
    = Some "bj".
Proof. by vm_compute. Qed.

(** C8: on a tracker with nothing pending, [apply] leaves the node map as it
    is, and the tracker empty; so a second [apply] right after a first one
    changes nothing. *)
Theorem apply_drained_noop (em : NodeMap) (c : NodeChangeTracker) (mt : Metrics)
    (order : list (string * nodeChange)) :
  items c = ∅ → order ≡ₚ map_to_list (items c) →
  (applyIn order em (Some c) mt).1.1 = em
  ∧ (applyIn order em (Some c) mt).1.2 = Some c
  ∧ (apply em (Some c) mt).1.1 = em.
Proof.
  intros Hempty Hperm. rewrite Hempty, map_to_list_empty in Hperm.
  apply Permutation_nil_r in Hperm as ->.
  destruct c as [its]. simpl in Hempty. subst its.
  split; [done|]. split; [done|].
  unfold apply. cbn [items]. by rewrite map_to_list_empty.
Qed.

Lemma apply_drained_noop_witness :
  (apply {[ "testNode1" := {| name := "testNode1"; labels := None |} ]}
         (Some NewNodeChangeTracker) metrics0).1.1
  = {[ "testNode1" := {| name := "testNode1"; labels := None |} ]}.
Proof.
  exact (proj2 (proj2 (apply_drained_noop _ NewNodeChangeTracker metrics0 []
                         eq_refl (reflexivity _)))).
Defined.

(** A second [apply], in any order, after a first one: same map, same
    tracker, same metrics. *)
Lemma apply_twice (em : NodeMap) (c : NodeChangeTracker) (mt : Metrics)
    (order order' : list (string * nodeChange)) :
  let r1 := applyIn order em (Some c) mt in
  rangeOrder r1.1.2 order' →
  applyIn order' r1.1.1 r1.1.2 r1.2 = r1.
Proof.
  cbn. rewrite map_to_list_empty. intros Hperm.
  by apply Permutation_nil_r in Hperm as ->.
Qed.

(** ** [FilterTopologyEndpoint] *)

(** The inner loop appends, in candidate order, the candidates whose node is
    known and carries the wanted value. *)
Lemma scanEndpoints_filter (nodeMap : NodeMap) (key want : string)
    (endpoints acc : list Endpoint) :
  scanEndpoints nodeMap key want endpoints acc
  = acc ++ filter (λ ep, carries nodeMap key want ep = true) endpoints.
Proof.
  revert acc. induction endpoints as [|ep rest IH]; intros acc.
  { simpl. by rewrite app_nil_r. }
  rewrite filter_cons. cbn [scanEndpoints]. unfold GetNodeName.
  assert (carries nodeMap key want ep
          = negb (bool_decide (EpNodeName ep = ""))
            && match nodeMap !! EpNodeName ep with
               | None => false
               | Some node => bool_decide (GetTopologyValue node key = Some want)
               end) as Hcarries by done.
  destruct (decide (EpNodeName ep = "")) as [Hempty|Hname].
  { rewrite bool_decide_eq_true_2 in Hcarries by done.
    rewrite decide_False by (rewrite Hcarries; done). apply IH. }
  rewrite bool_decide_eq_false_2 in Hcarries by done.
  destruct (nodeMap !! EpNodeName ep) as [node|].
  2:{ rewrite decide_False by (rewrite Hcarries; done). apply IH. }
  destruct (GetTopologyValue node key) as [value|].
  2:{ rewrite bool_decide_eq_false_2 in Hcarries by done.
      rewrite decide_False by (rewrite Hcarries; done). apply IH. }
  destruct (decide (value = want)) as [->|Hne].
  - rewrite bool_decide_eq_true_2 in Hcarries by done.
    rewrite decide_True by (rewrite Hcarries; done).
    rewrite IH. by rewrite <-app_assoc.
  - rewrite bool_decide_eq_false_2 in Hcarries by congruence.
    rewrite decide_False by (rewrite Hcarries; done). apply IH.
Qed.

Lemma keyMatches_known (nodeMap : NodeMap) (cur key : string) (cn : BaseNodeInfo)
    (endpoints : list Endpoint) :
  nodeMap !! cur = Some cn → key ≠ "" →
  keyMatches nodeMap cur key endpoints
  = match GetTopologyValue cn key with
    | None => []
    | Some want => filter (λ ep, carries nodeMap key want ep = true) endpoints
    end.
Proof.
  intros Hcur Hkey. unfold keyMatches. rewrite decide_False by done.
  unfold affine. rewrite Hcur. destruct (GetTopologyValue cn key); [done|].
  induction endpoints as [|ep rest IH]; [done|].
  by rewrite filter_cons_False.
Qed.

Lemma keyMatches_unknown (nodeMap : NodeMap) (cur key : string)
    (endpoints : list Endpoint) :
  nodeMap !! cur = None → key ≠ "" → keyMatches nodeMap cur key endpoints = [].
Proof.
  intros Hcur Hkey. unfold keyMatches. rewrite decide_False by done.
  unfold affine. rewrite Hcur.
  induction endpoints as [|ep rest IH]; [done|].
  by rewrite filter_cons_False.
Qed.

Lemma keyMatches_sublist (nodeMap : NodeMap) (cur key : string)
    (endpoints : list Endpoint) :
  keyMatches nodeMap cur key endpoints `sublist_of` endpoints.
Proof.
  unfold keyMatches. destruct (decide (key = "")); [done|]. apply sublist_filter.
Qed.

Lemma keyMatches_nil (nodeMap : NodeMap) (cur key : string) :
  keyMatches nodeMap cur key [] = [].
Proof. apply sublist_nil_r, keyMatches_sublist. Qed.

(** One turn of the loop over the keys, entered with nothing accumulated:
    the empty key ends the scan with all candidates, a key with matches ends
    it with those, and a key without leaves nothing accumulated for the
    next. *)
Lemma scanKeys_step (nodeMap : NodeMap) (cur : string) (cn : BaseNodeInfo)
    (endpoints : list Endpoint) (key : string) (rest : list string) :
  nodeMap !! cur = Some cn →
  scanKeys nodeMap cn endpoints (key :: rest) []
  = if decide (key = "") then endpoints
    else if decide (keyMatches nodeMap cur key endpoints = [])
         then scanKeys nodeMap cn endpoints rest []
         else keyMatches nodeMap cur key endpoints.
Proof.
  intros Hcur. cbn [scanKeys]. destruct (decide (key = "")) as [|Hkey]; [done|].
  rewrite (keyMatches_known _ _ _ _ _ Hcur Hkey).
  destruct (GetTopologyValue cn key) as [want|]; [|by rewrite decide_True].
  rewrite scanEndpoints_filter. cbn [app].
  destruct (filter _ endpoints) as [|ep l] eqn:Hf.
  - rewrite decide_False by (simpl; lia). by rewrite decide_True.
  - rewrite decide_True by (simpl; lia). by rewrite decide_False.
Qed.

Lemma scanKeys_first_match (nodeMap : NodeMap) (cur : string) (cn : BaseNodeInfo)
    (endpoints : list Endpoint) (pre : list string) (key : string) (post : list string) :
  nodeMap !! cur = Some cn →
  Forall (λ k, keyMatches nodeMap cur k endpoints = []) pre →
  keyMatches nodeMap cur key endpoints ≠ [] →
  scanKeys nodeMap cn endpoints (pre ++ key :: post) []
  = keyMatches nodeMap cur key endpoints.
Proof.
  intros Hcur Hpre Hkey. induction Hpre as [|k pre Hk _ IH]; cbn [app].
  - rewrite (scanKeys_step _ _ _ _ _ _ Hcur).
    destruct (decide (key = "")) as [->|]; [done|]. by rewrite decide_False.
  - rewrite (scanKeys_step _ _ _ _ _ _ Hcur).
    destruct (decide (k = "")) as [->|]; [|by rewrite decide_True].
    unfold keyMatches in Hk. rewrite decide_True in Hk by done. subst endpoints.
    by rewrite keyMatches_nil in Hkey.
Qed.

Lemma scanKeys_no_match (nodeMap : NodeMap) (cur : string) (cn : BaseNodeInfo)
    (endpoints : list Endpoint) (keys : list string) :
  nodeMap !! cur = Some cn →
  Forall (λ k, keyMatches nodeMap cur k endpoints = []) keys →
  scanKeys nodeMap cn endpoints keys [] = [].
Proof.
  intros Hcur Hkeys. induction Hkeys as [|k keys Hk _ IH]; [done|].
  rewrite (scanKeys_step _ _ _ _ _ _ Hcur).
  destruct (decide (k = "")) as [->|]; [|by rewrite decide_True].
  unfold keyMatches in Hk. by rewrite decide_True in Hk.
Qed.

Lemma scanKeys_wildcard (nodeMap : NodeMap) (cur : string) (cn : BaseNodeInfo)
    (endpoints : list Endpoint) (pre post : list string) :
  nodeMap !! cur = Some cn →
  Forall (λ k, keyMatches nodeMap cur k endpoints = []) pre →
  scanKeys nodeMap cn endpoints (pre ++ "" :: post) [] = endpoints.
Proof.
  intros Hcur Hpre. induction Hpre as [|k pre Hk _ IH]; cbn [app].
  - by rewrite (scanKeys_step _ _ _ _ _ _ Hcur).
  - rewrite (scanKeys_step _ _ _ _ _ _ Hcur).
    destruct (decide (k = "")); [done|]. by rewrite decide_True.
Qed.

Lemma scanKeys_sublist (nodeMap : NodeMap) (cur : string) (cn : BaseNodeInfo)
    (endpoints : list Endpoint) (keys : list string) :
  nodeMap !! cur = Some cn →
  scanKeys nodeMap cn endpoints keys [] `sublist_of` endpoints.
Proof.
  intros Hcur. induction keys as [|k keys IH]; [apply sublist_nil_l|].
  rewrite (scanKeys_step _ _ _ _ _ _ Hcur).
  destruct (decide (k = "")); [done|].
  destruct (decide (_ = [])); [done|]. apply keyMatches_sublist.
Qed.

(** C1, as stated, fails: with no key at all, no key matches any candidate,
    and the result is the full input, not the empty list. *)
Lemma FilterTopologyEndpoint_no_match_counterexample :
  ¬ (∀ (cur : string) (nodeMap : NodeMap) (keys : list string)
       (endpoints : list Endpoint),
       Forall (λ k, keyMatches nodeMap cur k endpoints = []) keys →
       FilterTopologyEndpoint cur nodeMap keys endpoints = []).
Proof.
  intros H. specialize (H "testNode3" nodeMap2 [] [ep1; ep2] (Forall_nil_2 _)).
  vm_compute in H. discriminate H.
Qed.

(** C1, amended: the keys are scanned in priority order, and the result is
    exactly the matches of the first key that has at least one, in
    candidate order, with nothing from later keys.  When the key list is
    not empty and the current node is in the node map, and no key (the
    empty key, which matches every candidate, included) matches any
    candidate, the result is the empty list.  In every case the result is a
    sublist of the candidates. *)
Theorem FilterTopologyEndpoint_first_match (cur : string) (nodeMap : NodeMap)
    (keys : list string) (endpoints : list Endpoint) :
  (∀ pre key post,
     keys = pre ++ key :: post →
     Forall (λ k, keyMatches nodeMap cur k endpoints = []) pre →
     keyMatches nodeMap cur key endpoints ≠ [] →
     FilterTopologyEndpoint cur nodeMap keys endpoints
     = keyMatches nodeMap cur key endpoints)
  ∧ (keys ≠ [] → is_Some (nodeMap !! cur) →
     Forall (λ k, keyMatches nodeMap cur k endpoints = []) keys →
     FilterTopologyEndpoint cur nodeMap keys endpoints = [])
  ∧ FilterTopologyEndpoint cur nodeMap keys endpoints `sublist_of` endpoints.
Proof.
  unfold FilterTopologyEndpoint. split; [|split].
  - intros pre key post -> Hpre Hkey.
    rewrite decide_False by (rewrite length_app; simpl; lia).
    destruct (nodeMap !! cur) as [cn|] eqn:Hcur.
    + by apply scanKeys_first_match.
    + destruct (decide (key = "")) as [->|Hne].
      * unfold keyMatches. by rewrite decide_True.
      * by rewrite keyMatches_unknown in Hkey.
  - intros Hkeys [cn Hcur] Hall. rewrite Hcur.
    rewrite decide_False by (destruct keys; [done|simpl; lia]).
    by apply (scanKeys_no_match _ cur).
  - destruct (decide (length keys = 0)); [done|].
    destruct (nodeMap !! cur) as [cn|] eqn:Hcur; [|done].
    by apply (scanKeys_sublist _ cur).
Qed.

(** Cases 2 and 3 of the test: node 3 finds no endpoint on its host and one
    in its zone; node 2 finds none on its host or in its zone. *)
Lemma FilterTopologyEndpoint_first_match_witness :
  FilterTopologyEndpoint "testNode3" nodeMap2 [hostname; zone] [ep1; ep2] = [ep1]
  ∧ FilterTopologyEndpoint "testNode2" nodeMap2 [hostname; zone] [ep1; ep3] = [].
Proof.
  split.
  - apply (proj1 (FilterTopologyEndpoint_first_match
                    "testNode3" nodeMap2 [hostname; zone] [ep1; ep2])
             [hostname] zone []).
    + reflexivity.
    + constructor; [vm_compute; reflexivity | constructor].
    + vm_compute. discriminate.
  - apply (proj1 (proj2 (FilterTopologyEndpoint_first_match
                           "testNode2" nodeMap2 [hostname; zone] [ep1; ep3]))).
    + discriminate.
    + vm_compute. eauto.
    + repeat constructor.
Defined.

(** C6: the candidates come back unchanged when there is no key, when the
    current node is not in the node map, and when the scan reaches the
    empty key, that is when no key before it has a match. *)
Theorem FilterTopologyEndpoint_unchanged (cur : string) (nodeMap : NodeMap)
    (keys : list string) (endpoints : list Endpoint) :
  (keys = [] → FilterTopologyEndpoint cur nodeMap keys endpoints = endpoints)
  ∧ (nodeMap !! cur = None →
     FilterTopologyEndpoint cur nodeMap keys endpoints = endpoints)
  ∧ (∀ pre post,
       keys = pre ++ "" :: post →
       Forall (λ k, keyMatches nodeMap cur k endpoints = []) pre →
       FilterTopologyEndpoint cur nodeMap keys endpoints = endpoints).
Proof.
  unfold FilterTopologyEndpoint. split; [|split].
  - by intros ->.
  - intros ->. by destruct (decide _).
  - intros pre post -> Hpre. destruct (decide _); [done|].
    destruct (nodeMap !! cur) as [cn|] eqn:Hcur; [|done].
    by apply (scanKeys_wildcard _ cur).
Qed.

(** Case 1 of the test (no key), an unknown current node, and case 4 (the
    empty key reached after three keys without a match). *)
Lemma FilterTopologyEndpoint_unchanged_witness :
  FilterTopologyEndpoint "testNode1" nodeMap2 [] [ep1; ep2] = [ep1; ep2]
  ∧ FilterTopologyEndpoint "testNode9" nodeMap2 [zone] [ep1; ep2] = [ep1; ep2]
  ∧ FilterTopologyEndpoint "testNode2" nodeMap4 [hostname; zone; region; ""] [ep1; ep3]
    = [ep1; ep3].
Proof.
  split; [|split].
  - exact (proj1 (FilterTopologyEndpoint_unchanged
                    "testNode1" nodeMap2 [] [ep1; ep2]) eq_refl).
  - exact (proj1 (proj2 (FilterTopologyEndpoint_unchanged
                           "testNode9" nodeMap2 [zone] [ep1; ep2])) eq_refl).
  - apply (proj2 (proj2 (FilterTopologyEndpoint_unchanged
                           "testNode2" nodeMap4 [hostname; zone; region; ""] [ep1; ep3]))
             [hostname; zone; region] []).
    + reflexivity.
    + repeat constructor.
Defined.

(** ** More on the tracker: what it never holds, and undoing a change *)

Lemma Update_noNoop (prev cur : option v1Node) (ect : NodeChangeTracker) (mt : Metrics) :
  noNoop ect → noNoop (Update prev cur ect mt).1.2.
Proof.
  intros Hok. destruct (changedNode prev cur) as [node|] eqn:Hn.
  2:{ unfold Update. by rewrite Hn. }
  rewrite (Update_unfold _ _ _ _ _ Hn). cbn [fst snd].
  unfold noNoop in *. cbn [items]. unfold updated.
  destruct (DeepEqual _ _) eqn:Heq.
  - by apply map_Forall_delete.
  - apply map_Forall_insert_2; [|done]. cbn [previous current].
    by apply DeepEqual_false.
Qed.

Lemma runUpdates_snoc (evs : list (option v1Node * option v1Node))
    (ev : option v1Node * option v1Node) (st : NodeChangeTracker * Metrics) :
  runUpdates (evs ++ [ev]) st
  = let st1 := runUpdates evs st in
    let r := Update ev.1 ev.2 st1.1 st1.2 in (r.1.2, r.2).
Proof. unfold runUpdates. by rewrite foldl_snoc. Qed.

Lemma runUpdates_noNoop (evs : list (option v1Node * option v1Node))
    (st : NodeChangeTracker * Metrics) :
  noNoop st.1 → noNoop (runUpdates evs st).1.
Proof.
  revert st. induction evs as [|ev evs IH]; intros st Hok; [done|].
  apply IH. cbn [fst]. by apply Update_noNoop.
Qed.

(** X1: whatever events it is fed, a tracker that started empty never holds
    a record whose previous and current snapshots are equal; in particular
    never one with both sides nil. *)
Theorem tracker_never_holds_noop (evs : list (option v1Node * option v1Node))
    (mt : Metrics) (k : string) (r : nodeChange) :
  items (runUpdates evs (NewNodeChangeTracker, mt)).1 !! k = Some r →
  previous r ≠ current r ∧ ¬ (previous r = None ∧ current r = None).
Proof.
  intros Hr.
  assert (noNoop (runUpdates evs (NewNodeChangeTracker, mt)).1) as Hok.
  { apply runUpdates_noNoop. apply map_Forall_empty. }
  pose proof (map_Forall_lookup_1 _ _ _ _ Hok Hr) as Hne. cbn in Hne.
  split; [done|]. intros [Hp Hc]. congruence.
Qed.

Lemma tracker_never_holds_noop_witness :
  previous {| previous := None; current := convertNode (Some nodeA) |}
  ≠ current {| previous := None; current := convertNode (Some nodeA) |}.
Proof.
  exact (proj1 (tracker_never_holds_noop [(None, Some nodeA)] metrics0 "testNode1"
                  _ eq_refl)).
Defined.

Lemma changedNode_swap (p c : option v1Node) (node : v1Node) :
  sameIdentity p c → changedNode p c = Some node →
  ∃ node', changedNode c p = Some node' ∧ Name node' = Name node.
Proof.
  intros Hsame Hn. destruct p as [x|], c as [y|]; simpl in *; simplify_eq.
  - exists x. split; [done|]. by apply Hsame.
  - by exists node.
  - by exists node.
Qed.

(** X2: undoing a change before it is applied leaves no trace.  With no
    record pending for a node, [Update(p, c)] followed by [Update(c, p)]
    for that node gives back the pending map as it was. *)
Theorem Update_then_undo (p c : option v1Node) (node : v1Node)
    (ect : NodeChangeTracker) (mt : Metrics) :
  changedNode p c = Some node → sameIdentity p c →
  items ect !! Name node = None →
  let r1 := Update p c ect mt in
  items (Update c p r1.1.2 r1.2).1.2 = items ect.
Proof.
  intros Hn Hsame Hnone r1. subst r1.
  destruct (changedNode_swap p c node Hsame Hn) as (node' & Hn' & Hname).
  rewrite (Update_unfold c p node') by done.
  rewrite (Update_unfold p c node) by done. cbn [fst snd items].
  rewrite Hname. unfold updated at 1.
  assert (accumulated (Name node) c (updated (Name node) p c (items ect))
          = convertNode p) as ->.
  { unfold accumulated at 1. rewrite updated_lookup. unfold accumulated.
    rewrite Hnone. destruct (DeepEqual (convertNode p) (convertNode c)) eqn:Heq; [|done].
    apply DeepEqual_spec in Heq. by rewrite Heq. }
  rewrite DeepEqual_refl. unfold updated, accumulated. rewrite Hnone.
  destruct (DeepEqual _ _).
  - rewrite delete_delete_eq. by apply delete_id.
  - rewrite delete_insert_eq. by apply delete_id.
Qed.

(** A node is added and deleted again before any [apply]: nothing is
    pending. *)
Lemma Update_then_undo_witness :
  let r1 := Update None (Some nodeA) NewNodeChangeTracker metrics0 in
  items (Update (Some nodeA) None r1.1.2 r1.2).1.2 = ∅.
Proof.
  apply (Update_then_undo None (Some nodeA) nodeA NewNodeChangeTracker metrics0).
  - reflexivity.
  - intros x y Hx. discriminate Hx.
  - reflexivity.
Defined.

(** X3: the last snapshot wins.  For a tracker fed, from empty, with events
    that each concern one node, [apply] in any order leaves for every node
    with a pending record exactly the current snapshot of that record (no
    entry when it is nil), and leaves every other entry alone. *)
Theorem apply_last_snapshot_wins (evs : list (option v1Node * option v1Node))
    (em : NodeMap) (mt mt' : Metrics) (order : list (string * nodeChange)) :
  Forall (λ ev, sameIdentity ev.1 ev.2) evs →
  let ect := (runUpdates evs (NewNodeChangeTracker, mt)).1 in
  order ≡ₚ map_to_list (items ect) →
  let em' := (applyIn order em (Some ect) mt').1.1 in
  (∀ k r, items ect !! k = Some r → em' !! k = current r)
  ∧ (∀ k, items ect !! k = None → em' !! k = em !! k).
Proof.
  intros Hevs ect Hperm em'.
  assert (tracker_wf ect) as Hwf.
  { apply runUpdates_wf; [done|]. apply NewNodeChangeTracker_wf. }
  assert (noNoop ect) as Hok.
  { apply runUpdates_noNoop. apply map_Forall_empty. }
  destruct (tracker_wf_order ect order Hwf Hperm) as [Hkeyed Hnd].
  subst em'. cbn [applyIn fst]. split.
  - intros k r Hr.
    assert ((k, r) ∈ order) as Hin by (rewrite Hperm; by apply elem_of_map_to_list).
    rewrite (applyRange_lookup_in _ _ k r Hkeyed Hnd Hin).
    pose proof (map_Forall_lookup_1 _ _ _ _ Hok Hr) as Hne. cbn in Hne.
    unfold effect. destruct (current r) as [cu|]; [done|].
    destruct (previous r); [done|]. by destruct Hne.
  - intros k Hnone. apply applyRange_lookup_notin; [done|].
    rewrite Hperm. intros Hin. apply list_elem_of_fmap in Hin as ([k' r] & -> & Hin).
    apply elem_of_map_to_list in Hin. simpl in Hnone. congruence.
Qed.

(** The node is added, then relabelled twice: the map gets the last
    labels. *)
Lemma apply_last_snapshot_wins_witness :
  let evs := [(None, Some nodeA); (Some nodeA, Some nodeA'); (Some nodeA', Some nodeA'')] in
  let ect := (runUpdates evs (NewNodeChangeTracker, metrics0)).1 in
  (apply ∅ (Some ect) metrics0).1.1 !! "testNode1"
  = Some {| name := "testNode1"; labels := Some {[ "zone" := "90002" ]} |}.
Proof.
  intros evs ect.
  assert (Forall (λ ev : option v1Node * option v1Node, sameIdentity ev.1 ev.2) evs) as Hevs.
  { repeat constructor; intros x y Hx Hy; simpl in *; simplify_eq; reflexivity. }
  exact (proj1 (apply_last_snapshot_wins evs ∅ metrics0 metrics0
                  (map_to_list (items ect)) Hevs (reflexivity _))
           "testNode1" _ eq_refl).
Defined.

(** ** More on [FilterTopologyEndpoint] *)

Lemma keyMatches_wildcard (nodeMap : NodeMap) (cur : string) (endpoints : list Endpoint) :
  keyMatches nodeMap cur "" endpoints = endpoints.
Proof. unfold keyMatches. by rewrite decide_True. Qed.

(** How a scan ends: at the empty key, at the first key with a match, or
    after the last key. *)
Lemma scanKeys_cases (nodeMap : NodeMap) (cur : string) (cn : BaseNodeInfo)
    (endpoints : list Endpoint) (keys : list string) :
  nodeMap !! cur = Some cn →
  (∃ pre post, keys = pre ++ "" :: post
     ∧ Forall (λ k, k ≠ "" ∧ keyMatches nodeMap cur k endpoints = []) pre
     ∧ scanKeys nodeMap cn endpoints keys [] = endpoints)
  ∨ (∃ pre key post, keys = pre ++ key :: post
     ∧ Forall (λ k, k ≠ "" ∧ keyMatches nodeMap cur k endpoints = []) pre
     ∧ key ≠ "" ∧ keyMatches nodeMap cur key endpoints ≠ []
     ∧ scanKeys nodeMap cn endpoints keys [] = keyMatches nodeMap cur key endpoints)
  ∨ (Forall (λ k, k ≠ "" ∧ keyMatches nodeMap cur k endpoints = []) keys
     ∧ scanKeys nodeMap cn endpoints keys [] = []).
Proof.
  intros Hcur. induction keys as [|k keys IH].
  { right; right. by split. }
  rewrite (scanKeys_step _ _ _ _ _ _ Hcur).
  destruct (decide (k = "")) as [->|Hk].
  { left. by exists [], keys. }
  destruct (decide (keyMatches nodeMap cur k endpoints = [])) as [Hnil|Hsome].
  2:{ right; left. by exists [], k, keys. }
  destruct IH as [(pre & post & -> & Hpre & Hres)
                 |[(pre & key & post & -> & Hpre & Hkey & Hm & Hres)|[Hall Hres]]].
  - left. exists (k :: pre), post. split; [done|]. split; [|done]. by constructor.
  - right; left. exists (k :: pre), key, post. split; [done|].
    split; [by constructor|done].
  - right; right. split; [by constructor|done].
Qed.

Lemma keyMatches_elem (nodeMap : NodeMap) (cur key : string) (endpoints : list Endpoint)
    (ep : Endpoint) :
  key ≠ "" → ep ∈ keyMatches nodeMap cur key endpoints →
  EpNodeName ep ≠ ""
  ∧ ∃ cn node want,
      nodeMap !! cur = Some cn ∧ nodeMap !! EpNodeName ep = Some node
      ∧ GetTopologyValue cn key = Some want ∧ GetTopologyValue node key = Some want.
Proof.
  intros Hkey. unfold keyMatches. rewrite decide_False by done.
  rewrite list_elem_of_filter. intros [Haff _]. unfold affine in Haff.
  destruct (nodeMap !! cur) as [cn|]; [|done].
  destruct (GetTopologyValue cn key) as [want|] eqn:Hwant; [|done].
  unfold carries in Haff. apply andb_true_iff in Haff as [Hname Hnode].
  apply negb_true_iff, bool_decide_eq_false in Hname.
  destruct (nodeMap !! EpNodeName ep) as [node|]; [|done].
  apply bool_decide_eq_true in Hnode. split; [done|]. by exists cn, node, want.
Qed.

Lemma elem_of_keyMatches (nodeMap : NodeMap) (cur key : string)
    (endpoints : list Endpoint) (ep : Endpoint) :
  key ≠ "" →
  ep ∈ keyMatches nodeMap cur key endpoints
  ↔ ep ∈ endpoints ∧ EpNodeName ep ≠ ""
    ∧ ∃ cn node want,
        nodeMap !! cur = Some cn ∧ nodeMap !! EpNodeName ep = Some node
        ∧ GetTopologyValue cn key = Some want ∧ GetTopologyValue node key = Some want.
Proof.
  intros Hkey. split.
  - intros Hep. split.
    + eapply elem_of_sublist; [exact Hep|apply keyMatches_sublist].
    + by apply (keyMatches_elem nodeMap cur key endpoints).
  - intros (Hin & Hname & cn & node & want & Hcn & Hnode & Hw & Hw').
    unfold keyMatches. rewrite decide_False by done.
    apply list_elem_of_filter. split; [|done].
    unfold affine, carries. rewrite Hcn, Hw, Hnode.
    rewrite bool_decide_eq_false_2 by done. by rewrite bool_decide_eq_true_2.
Qed.

(** X4: the result has one of three forms.  It is the whole input; or it is
    not empty and is the selection of one key of the list, not the empty
    key and with no selection by any key before it: the candidates, in
    their order, whose node is named, known and carries under that key the
    value the current node carries; or it is empty, and then no candidate
    is selected by any key of the list. *)
Theorem FilterTopologyEndpoint_one_key (cur : string) (nodeMap : NodeMap)
    (keys : list string) (endpoints : list Endpoint) :
  let res := FilterTopologyEndpoint cur nodeMap keys endpoints in
  let selects := λ (key : string) (ep : Endpoint),
    EpNodeName ep ≠ ""
    ∧ ∃ cn node want,
        nodeMap !! cur = Some cn ∧ nodeMap !! EpNodeName ep = Some node
        ∧ GetTopologyValue cn key = Some want
        ∧ GetTopologyValue node key = Some want in
  res = endpoints
  ∨ (∃ pre key post, keys = pre ++ key :: post ∧ key ≠ "" ∧ res ≠ []
       ∧ (∀ k ep, k ∈ pre → ep ∈ endpoints → k ≠ "" ∧ ¬ selects k ep)
       ∧ res = keyMatches nodeMap cur key endpoints
       ∧ res `sublist_of` endpoints
       ∧ ∀ ep, ep ∈ res ↔ ep ∈ endpoints ∧ selects key ep)
  ∨ (res = [] ∧ ∀ key ep, key ∈ keys → ep ∈ endpoints → ¬ selects key ep).
Proof.
  intros res selects. subst res selects. unfold FilterTopologyEndpoint.
  destruct (decide (length keys = 0)); [by left|].
  destruct (nodeMap !! cur) as [cn|] eqn:Hcur; [|by left].
  destruct (scanKeys_cases nodeMap cur cn endpoints keys Hcur)
    as [(pre & post & -> & _ & ->)
       |[(pre & key & post & -> & Hpre & Hkey & Hm & ->)|[Hall ->]]].
  - by left.
  - right; left. exists pre, key, post. split; [done|]. split; [done|]. split; [done|].
    split.
    { intros k ep Hk Hep. rewrite Forall_forall in Hpre.
      destruct (Hpre k Hk) as [Hne Hnil]. split; [done|]. intros Hsel.
      assert (ep ∈ keyMatches nodeMap cur k endpoints) as Hin.
      { apply elem_of_keyMatches; [done|]. split; [done|]. by rewrite Hcur. }
      rewrite Hnil in Hin. by apply elem_of_nil in Hin. }
    split; [done|]. split; [apply keyMatches_sublist|].
    intros ep. rewrite (elem_of_keyMatches nodeMap cur key endpoints ep Hkey).
    by rewrite Hcur.
  - right; right. split; [done|]. intros key ep Hkey Hep Hsel.
    rewrite Forall_forall in Hall. destruct (Hall key Hkey) as [Hne Hnil].
    assert (ep ∈ keyMatches nodeMap cur key endpoints) as Hin.
    { apply elem_of_keyMatches; [done|]. split; [done|]. by rewrite Hcur. }
    rewrite Hnil in Hin. by apply elem_of_nil in Hin.
Qed.

(** X5: a key list that contains the empty key never filters a non-empty
    candidate list down to nothing. *)
Theorem FilterTopologyEndpoint_wildcard_nonempty (cur : string) (nodeMap : NodeMap)
    (keys : list string) (endpoints : list Endpoint) :
  "" ∈ keys → endpoints ≠ [] →
  FilterTopologyEndpoint cur nodeMap keys endpoints ≠ [].
Proof.
  intros Hin Hne. unfold FilterTopologyEndpoint.
  destruct (decide (length keys = 0)); [done|].
  destruct (nodeMap !! cur) as [cn|] eqn:Hcur; [|done].
  destruct (scanKeys_cases nodeMap cur cn endpoints keys Hcur)
    as [(pre & post & -> & _ & ->)
       |[(pre & key & post & -> & _ & _ & Hm & ->)|[Hall _]]]; [done|done|].
  rewrite Forall_forall in Hall. by destruct (Hall "" Hin).
Qed.

Lemma FilterTopologyEndpoint_wildcard_nonempty_witness :
  FilterTopologyEndpoint "testNode2" nodeMap4 [hostname; zone; region; ""] [ep1; ep3] ≠ [].
Proof.
  apply FilterTopologyEndpoint_wildcard_nonempty.
  - set_solver.
  - discriminate.
Defined.

Lemma scanKeys_after_wildcard (nodeMap : NodeMap) (cn : BaseNodeInfo)
    (endpoints : list Endpoint) (pre post : list string) (acc : list Endpoint) :
  scanKeys nodeMap cn endpoints (pre ++ "" :: post) acc
  = scanKeys nodeMap cn endpoints (pre ++ [""]) acc.
Proof.
  revert acc. induction pre as [|k pre IH]; intros acc; cbn [app scanKeys].
  { by rewrite !decide_True. }
  destruct (decide (k = "")); [done|].
  destruct (GetTopologyValue cn k); [|apply IH].
  destruct (decide _); [done|apply IH].
Qed.

(** X6: keys listed after the empty key are never looked at. *)
Theorem FilterTopologyEndpoint_after_wildcard (cur : string) (nodeMap : NodeMap)
    (pre post : list string) (endpoints : list Endpoint) :
  FilterTopologyEndpoint cur nodeMap (pre ++ "" :: post) endpoints
  = FilterTopologyEndpoint cur nodeMap (pre ++ [""]) endpoints.
Proof.
  unfold FilterTopologyEndpoint.
  rewrite !decide_False by (rewrite length_app; simpl; lia).
  destruct (nodeMap !! cur); [|done]. apply scanKeys_after_wildcard.
Qed.

Lemma scanKeys_skip_unlabelled (nodeMap : NodeMap) (cn : BaseNodeInfo)
    (endpoints : list Endpoint) (pre : list string) (key : string) (post : list string)
    (acc : list Endpoint) :
  key ≠ "" → GetTopologyValue cn key = None →
  scanKeys nodeMap cn endpoints (pre ++ key :: post) acc
  = scanKeys nodeMap cn endpoints (pre ++ post) acc.
Proof.
  intros Hkey Hnone. revert acc. induction pre as [|k pre IH]; intros acc; cbn [app].
  { cbn [scanKeys]. rewrite decide_False by done. by rewrite Hnone. }
  cbn [scanKeys]. destruct (decide (k = "")); [done|].
  destruct (GetTopologyValue cn k); [|apply IH].
  destruct (decide _); [done|apply IH].
Qed.

(** X7: a key the current node has no label for is passed over: dropping
    it from the list changes nothing, as long as some key is left. *)
Theorem FilterTopologyEndpoint_skip_unlabelled (cur : string) (nodeMap : NodeMap)
    (cn : BaseNodeInfo) (pre : list string) (key : string) (post : list string)
    (endpoints : list Endpoint) :
  nodeMap !! cur = Some cn → key ≠ "" → GetTopologyValue cn key = None →
  pre ++ post ≠ [] →
  FilterTopologyEndpoint cur nodeMap (pre ++ key :: post) endpoints
  = FilterTopologyEndpoint cur nodeMap (pre ++ post) endpoints.
Proof.
  intros Hcur Hkey Hnone Hleft. unfold FilterTopologyEndpoint. rewrite Hcur.
  rewrite decide_False by (rewrite length_app; simpl; lia).
  rewrite decide_False by (destruct (pre ++ post); [done|simpl; lia]).
  by apply scanKeys_skip_unlabelled.
Qed.

(** The nodes of case 2 carry no region label. *)
Lemma FilterTopologyEndpoint_skip_unlabelled_witness :
  FilterTopologyEndpoint "testNode3" nodeMap2 [hostname; region; zone] [ep1; ep2]
  = FilterTopologyEndpoint "testNode3" nodeMap2 [hostname; zone] [ep1; ep2].
Proof.
  apply (FilterTopologyEndpoint_skip_unlabelled "testNode3" nodeMap2
           (testNode "testNode3" [(hostname, "10.0.0.3"); (zone, "90001")])
           [hostname] region [zone]).
  - reflexivity.
  - discriminate.
  - reflexivity.
  - discriminate.
Defined.

Lemma filter_nil_of_subset {A} (P : A → Prop) `{∀ x, Decision (P x)} (l r : list A) :
  filter P l = [] → (∀ x, x ∈ r → x ∈ l) → filter P r = [].
Proof.
  intros Hnil Hsub. induction r as [|x r IH]; [done|].
  rewrite filter_cons_False.
  - apply IH. intros y Hy. apply Hsub. by right.
  - intros HP. assert (x ∈ filter P l) as Hin.
    { apply list_elem_of_filter. split; [done|]. apply Hsub. by left. }
    rewrite Hnil in Hin. by apply elem_of_nil in Hin.
Qed.

Lemma filter_twice {A} (P : A → Prop) `{∀ x, Decision (P x)} (l : list A) :
  filter P (filter P l) = filter P l.
Proof.
  induction l as [|x l IH]; [done|].
  rewrite filter_cons. destruct (decide (P x)); [|done].
  rewrite filter_cons_True by done. by rewrite IH.
Qed.

Lemma keyMatches_nil_of_subset (nodeMap : NodeMap) (cur key : string)
    (endpoints sub : list Endpoint) :
  key ≠ "" → keyMatches nodeMap cur key endpoints = [] →
  (∀ ep, ep ∈ sub → ep ∈ endpoints) →
  keyMatches nodeMap cur key sub = [].
Proof.
  intros Hkey. unfold keyMatches. rewrite !decide_False by done.
  apply filter_nil_of_subset.
Qed.

(** X8: filtering is idempotent: filtering the result again, with the same
    node, map and keys, gives the result back. *)
Theorem FilterTopologyEndpoint_idempotent (cur : string) (nodeMap : NodeMap)
    (keys : list string) (endpoints : list Endpoint) :
  FilterTopologyEndpoint cur nodeMap keys
    (FilterTopologyEndpoint cur nodeMap keys endpoints)
  = FilterTopologyEndpoint cur nodeMap keys endpoints.
Proof.
  unfold FilterTopologyEndpoint. destruct (decide (length keys = 0)); [done|].
  destruct (nodeMap !! cur) as [cn|] eqn:Hcur; [|done].
  destruct (scanKeys_cases nodeMap cur cn endpoints keys Hcur)
    as [(pre & post & -> & Hpre & ->)
       |[(pre & key & post & -> & Hpre & Hkey & Hm & ->)|[Hall ->]]].
  - apply (scanKeys_wildcard _ cur); [done|].
    eapply Forall_impl; [exact Hpre|]. by intros k [_ Hk].
  - assert (keyMatches nodeMap cur key (keyMatches nodeMap cur key endpoints)
            = keyMatches nodeMap cur key endpoints) as Hsame.
    { unfold keyMatches. rewrite !decide_False by done. apply filter_twice. }
    rewrite <-Hsame at 2. apply (scanKeys_first_match _ cur); [done| |by rewrite Hsame].
    eapply Forall_impl; [exact Hpre|]. intros k [Hk Hnil].
    apply (keyMatches_nil_of_subset _ _ _ endpoints); [done|done|].
    intros ep Hep. eapply elem_of_sublist; [exact Hep|apply keyMatches_sublist].
  - apply (scanKeys_no_match _ cur); [done|].
    eapply Forall_impl; [exact Hall|]. intros k _. apply keyMatches_nil.
Qed.

End proxy_proofs.

(** * Properties of [pkg/util/ipset] *)

Module ipset_proofs.
Import ipset.

#[local] Set Warnings "-clear-no-such-hyp".

(** ** Numbers and their digits *)

Lemma Itoa_inj (a b : Z) : Itoa a = Itoa b → a = b.
Proof.
  unfold Itoa. intros Heq.
  assert (Z.to_int a = Z.to_int b) as Hint.
  { pose proof (NilEmpty.isi (Z.to_int a)) as Ha.
    rewrite Heq, NilEmpty.isi in Ha. by injection Ha. }
  rewrite <-(DecimalZ.of_to a), <-(DecimalZ.of_to b). by rewrite Hint.
Qed.

Lemma string_of_uint_no_sign (d : Decimal.uint) (c : ascii) :
  c = "-"%char ∨ c = "+"%char ∨ c = ","%char ∨ c = ":"%char →
  occurs c (NilEmpty.string_of_uint d) = false.
Proof.
  intros Hc. induction d as [|d IH|d IH|d IH|d IH|d IH|d IH|d IH|d IH|d IH|d IH];
    [done|..]; cbn [NilEmpty.string_of_uint occurs]; rewrite IH;
    rewrite bool_decide_eq_false_2; try done;
    destruct Hc as [-> | [-> | [-> | ->]]]; discriminate.
Qed.

Lemma Itoa_nonneg_no_sign (n : Z) (c : ascii) :
  (0 ≤ n)%Z → c = "-"%char ∨ c = "+"%char ∨ c = ","%char ∨ c = ":"%char →
  occurs c (Itoa n) = false.
Proof.
  intros Hn Hc. unfold Itoa. destruct n as [|p|p]; [|by apply string_of_uint_no_sign|lia].
  simpl. rewrite bool_decide_eq_false_2; [done|].
  destruct Hc as [-> | [-> | [-> | ->]]]; discriminate.
Qed.

Lemma Z_of_uint_nonneg (d : Decimal.uint) : (0 ≤ Z.of_uint d)%Z.
Proof. unfold Z.of_uint. lia. Qed.

(** What [Atoi] makes of a string that has no minus sign in it. *)
Lemma Atoi_no_minus (s : string) (v : Z) :
  occurs "-"%char s = false → Atoi s = Some v → (0 ≤ v ≤ maxInt)%Z.
Proof.
  intros Hocc. unfold Atoi.
  assert (∀ body, (match body with
                   | EmptyString => None
                   | String _ _ =>
                       match NilEmpty.uint_of_string body with
                       | Some d =>
                           if bool_decide (minInt ≤ Z.of_uint d ≤ maxInt)%Z
                           then Some (Z.of_uint d) else None
                       | None => None
                       end
                   end = Some v) → (0 ≤ v ≤ maxInt)%Z) as Hbody.
  { intros body Hb. destruct body as [|a r]; [done|].
    destruct (NilEmpty.uint_of_string _) as [d|]; [|done].
    case_bool_decide; [|done]. injection Hb as <-.
    pose proof (Z_of_uint_nonneg d). lia. }
  destruct s as [|a r]; [done|].
  destruct (decide (a = "+"%char)) as [->|Hplus]; [apply Hbody|].
  destruct (decide (a = "-"%char)) as [->|Hminus].
  { cbn [occurs] in Hocc. by rewrite bool_decide_eq_true_2 in Hocc. }
  assert ((match String a r with
           | String "+"%char r0 => (false, r0)
           | String "-"%char r0 => (true, r0)
           | _ => (false, String a r)
           end) = (false, String a r)) as ->; [|apply (Hbody (String a r))].
  destruct a as [[] [] [] [] [] [] [] []]; try reflexivity; congruence.
Qed.

Lemma string_of_uint_first (d : Decimal.uint) :
  d ≠ Decimal.Nil →
  ∃ a r, NilEmpty.string_of_uint d = String a r ∧ a ≠ "+"%char ∧ a ≠ "-"%char.
Proof.
  intros Hd. destruct d; [done|..]; eexists _, _; (split; [reflexivity|done]).
Qed.

Lemma Atoi_digits (d : Decimal.uint) :
  d ≠ Decimal.Nil → (Z.of_uint d ≤ maxInt)%Z →
  Atoi (NilEmpty.string_of_uint d) = Some (Z.of_uint d).
Proof.
  intros Hd Hmax. destruct (string_of_uint_first d Hd) as (a & r & Heq & Hplus & Hminus).
  unfold Atoi.
  assert ((match NilEmpty.string_of_uint d with
           | String "+"%char r0 => (false, r0)
           | String "-"%char r0 => (true, r0)
           | _ => (false, NilEmpty.string_of_uint d)
           end) = (false, NilEmpty.string_of_uint d)) as ->.
  { rewrite Heq. destruct a as [[] [] [] [] [] [] [] []]; try reflexivity; congruence. }
  rewrite NilEmpty.usu. rewrite Heq at 1.
  pose proof (Z_of_uint_nonneg d).
  rewrite bool_decide_eq_true_2; [done|]. unfold minInt. lia.
Qed.

(** [Atoi] reads back what [Itoa] writes, for every [int]. *)
Lemma Atoi_Itoa (n : Z) : (minInt ≤ n ≤ maxInt)%Z → Atoi (Itoa n) = Some n.
Proof.
  intros Hn. unfold Itoa. destruct n as [|p|p].
  - reflexivity.
  - cbn [Z.to_int NilEmpty.string_of_int].
    assert (Z.of_uint (Pos.to_uint p) = Z.pos p) as Hval.
    { unfold Z.of_uint. by rewrite DecimalPos.Unsigned.of_to. }
    rewrite Atoi_digits.
    + by rewrite Hval.
    + apply Unsigned.to_uint_nonnil.
    + rewrite Hval. lia.
  - cbn [Z.to_int NilEmpty.string_of_int]. unfold Atoi.
    assert (Z.of_uint (Pos.to_uint p) = Z.pos p) as Hval.
    { unfold Z.of_uint. by rewrite DecimalPos.Unsigned.of_to. }
    destruct (string_of_uint_first (Pos.to_uint p) (Unsigned.to_uint_nonnil p))
      as (a & r & Heq & _ & _).
    rewrite NilEmpty.usu. rewrite Heq at 1. rewrite Hval.
    rewrite bool_decide_eq_true_2; [done|]. lia.
Qed.

(** ** [strings.Split] with a separator of one byte *)

Lemma Split_nonempty (s : string) (c : ascii) : Split s c ≠ [].
Proof.
  destruct s as [|a r]; [done|]. cbn [Split].
  destruct (decide (a = c)); [done|]. by destruct (Split r c).
Qed.

Lemma Split_no_sep (s : string) (c : ascii) : occurs c s = false → Split s c = [s].
Proof.
  induction s as [|a r IH]; [done|]. cbn [occurs Split]. intros Hocc.
  apply orb_false_iff in Hocc as [Ha Hr]. apply bool_decide_eq_false in Ha.
  rewrite decide_False by done. by rewrite IH.
Qed.

Lemma Split_app_sep (a b : string) (c : ascii) :
  occurs c a = false → Split (a +:+ String c b) c = a :: Split b c.
Proof.
  induction a as [|x r IH]; simpl; intros Hocc.
  { by rewrite decide_True. }
  apply orb_false_iff in Hocc as [Hx Hr]. apply bool_decide_eq_false in Hx.
  rewrite decide_False by done. by rewrite IH.
Qed.

Lemma Split_one (s : string) (c : ascii) (b : string) :
  Split s c = [b] → s = b ∧ occurs c b = false.
Proof.
  revert b. induction s as [|a r IH]; intros b; cbn [Split].
  { by intros [= <-]. }
  destruct (decide (a = c)) as [->|Hne].
  { intros [= <- Hr]. by destruct (Split_nonempty r c). }
  destruct (Split r c) as [|p ps] eqn:Hsplit; [by destruct (Split_nonempty r c)|].
  intros [= <- ->]. destruct (IH p eq_refl) as [-> Hocc].
  split; [done|]. cbn [occurs]. by rewrite bool_decide_eq_false_2.
Qed.

Lemma Split_two (s : string) (c : ascii) (a b : string) :
  Split s c = [a; b] →
  s = a +:+ String c b ∧ occurs c a = false ∧ occurs c b = false.
Proof.
  revert a. induction s as [|x r IH]; intros a; cbn [Split]; [done|].
  destruct (decide (x = c)) as [->|Hne].
  { intros [= <- Hr]. by destruct (Split_one r c b Hr) as [-> Hocc]. }
  destruct (Split r c) as [|p ps] eqn:Hsplit; [done|].
  intros [= <- ->]. destruct (IH p eq_refl) as (-> & Hp & Hb).
  split; [done|]. split; [|done]. cbn [occurs]. by rewrite bool_decide_eq_false_2.
Qed.

Lemma Split_snoc_sep (s : string) (c : ascii) :
  Split (s +:+ String c "") c = Split s c ++ [""].
Proof.
  induction s as [|x r IH]; simpl.
  { by rewrite decide_True. }
  destruct (decide (x = c)); [by rewrite IH|].
  rewrite IH. destruct (Split r c) as [|p ps] eqn:Hsplit; [|done].
  by destruct (Split_nonempty r c).
Qed.

(** ** [validatePortRange] *)

(** X15: [validatePortRange] accepts a string exactly when it is two
    pieces joined by a hyphen, with no other hyphen in either piece, and
    [Atoi] reads each piece; the two numbers read are then [int]s that are
    not negative.  Nothing else is asked. *)
Theorem validatePortRange_accepts (portRange : string) :
  validatePortRange portRange = true
  ↔ ∃ a b lo hi,
      portRange = a +:+ "-" +:+ b
      ∧ occurs "-"%char a = false ∧ occurs "-"%char b = false
      ∧ Atoi a = Some lo ∧ Atoi b = Some hi
      ∧ (0 ≤ lo ≤ maxInt)%Z ∧ (0 ≤ hi ≤ maxInt)%Z.
Proof.
  unfold validatePortRange. split.
  - destruct (decide _) as [|Hlen]; [done|].
    destruct (Split portRange "-") as [|a [|b [|x l]]] eqn:Hsplit;
      try (exfalso; apply Hlen; simpl; lia).
    cbn [forallb]. rewrite andb_true_r, andb_true_iff, !bool_decide_eq_true.
    intros [[lo Hlo] [hi Hhi]].
    destruct (Split_two _ _ _ _ Hsplit) as (-> & Ha & Hb).
    exists a, b, lo, hi. split; [done|]. split; [done|]. split; [done|].
    split; [done|]. split; [done|].
    split; [by apply (Atoi_no_minus a)|by apply (Atoi_no_minus b)].
  - intros (a & b & lo & hi & -> & Ha & Hb & Hlo & Hhi & _).
    change (a +:+ "-" +:+ b) with (a +:+ String "-" b).
    rewrite Split_app_sep, Split_no_sep by done.
    cbn [length forallb]. rewrite decide_False by lia.
    rewrite Hlo, Hhi. rewrite !bool_decide_eq_true_2; [done|eauto|eauto].
Qed.

Lemma validatePortRange_accepts_witness :
  ∃ a b lo hi,
    DefaultPortRange = a +:+ "-" +:+ b
    ∧ occurs "-"%char a = false ∧ occurs "-"%char b = false
    ∧ Atoi a = Some lo ∧ Atoi b = Some hi
    ∧ (0 ≤ lo ≤ maxInt)%Z ∧ (0 ≤ hi ≤ maxInt)%Z.
Proof. exact (proj1 (validatePortRange_accepts DefaultPortRange) eq_refl). Defined.

(** X16: any two [int]s that are not negative, written in decimal with a
    hyphen between them, pass [validatePortRange]: a range given upside
    down, or beyond 65535, passes too. *)
Theorem validatePortRange_syntax_only (lo hi : Z) :
  (0 ≤ lo ≤ maxInt)%Z → (0 ≤ hi ≤ maxInt)%Z →
  validatePortRange (Itoa lo +:+ "-" +:+ Itoa hi) = true.
Proof.
  intros Hlo Hhi. unfold validatePortRange.
  change (Itoa lo +:+ "-" +:+ Itoa hi) with (Itoa lo +:+ String "-" (Itoa hi)).
  rewrite Split_app_sep by (apply Itoa_nonneg_no_sign; [lia|auto]).
  rewrite Split_no_sep by (apply Itoa_nonneg_no_sign; [lia|auto]).
  cbn [length forallb]. rewrite decide_False by lia.
  rewrite !Atoi_Itoa by (unfold minInt; lia).
  rewrite !bool_decide_eq_true_2; [done|eauto|eauto].
Qed.

Lemma validatePortRange_syntax_only_witness : validatePortRange "70000-1" = true.
Proof.
  apply (validatePortRange_syntax_only 70000 1); unfold maxInt; lia.
Defined.

(** ** [Entry.String] *)

Lemma append_sep_inj (c : ascii) (a1 a2 r1 r2 : string) :
  occurs c a1 = false → occurs c a2 = false →
  a1 +:+ String c r1 = a2 +:+ String c r2 → a1 = a2 ∧ r1 = r2.
Proof.
  revert a2. induction a1 as [|x a1 IH]; intros [|y a2];
    simpl; intros H1 H2 Heq.
  - by injection Heq.
  - injection Heq as <- _. by rewrite bool_decide_eq_true_2 in H2.
  - injection Heq as -> _. by rewrite bool_decide_eq_true_2 in H1.
  - apply orb_false_iff in H1 as [_ H1]. apply orb_false_iff in H2 as [_ H2].
    injection Heq as -> Heq. destruct (IH a2 H1 H2 Heq) as [-> ->]. done.
Qed.

(** X17: for a set of addresses with ports, the entry string tells the
    entries apart: two entries whose addresses have no comma and whose
    protocols have no colon have the same string only when address,
    protocol and port are the same. *)
Theorem Entry_String_inj_HashIpPort (e1 e2 : Entry) :
  typeName (EntrySetType e1) = typeName HashIpPort →
  typeName (EntrySetType e2) = typeName HashIpPort →
  occurs ","%char (IP e1) = false → occurs ","%char (IP e2) = false →
  occurs ":"%char (Protocol e1) = false → occurs ":"%char (Protocol e2) = false →
  Entry_String e1 = Entry_String e2 →
  IP e1 = IP e2 ∧ Protocol e1 = Protocol e2 ∧ Port e1 = Port e2.
Proof.
  intros Ht1 Ht2 Hip1 Hip2 Hp1 Hp2. unfold Entry_String.
  rewrite !decide_True by done.
  change (IP e1 +:+ "," +:+ Protocol e1 +:+ ":" +:+ Itoa (Port e1))
    with (IP e1 +:+ String "," (Protocol e1 +:+ String ":" (Itoa (Port e1)))).
  change (IP e2 +:+ "," +:+ Protocol e2 +:+ ":" +:+ Itoa (Port e2))
    with (IP e2 +:+ String "," (Protocol e2 +:+ String ":" (Itoa (Port e2)))).
  intros Heq. apply append_sep_inj in Heq as [Hip Heq]; [|done|done].
  apply append_sep_inj in Heq as [Hproto Hport]; [|done|done].
  by apply Itoa_inj in Hport.
Qed.

Lemma Entry_String_inj_HashIpPort_witness :
  let e1 := mkEntry "192.168.1.1" 53 "udp" HashIpPort in
  let e2 := mkEntry "192.168.1.1" 53 "udp" (OtherType "hash:ip,port") in
  IP e1 = IP e2 ∧ Protocol e1 = Protocol e2 ∧ Port e1 = Port e2.
Proof.
  intros e1 e2.
  exact (Entry_String_inj_HashIpPort e1 e2
           eq_refl eq_refl eq_refl eq_refl eq_refl eq_refl eq_refl).
Defined.

(** X18: for a set of ports, the entry string is the port and nothing
    else: two entries have the same string exactly when they have the same
    port, whatever their addresses and protocols. *)
Theorem Entry_String_BitmapPort (e1 e2 : Entry) :
  typeName (EntrySetType e1) = typeName BitmapPort →
  typeName (EntrySetType e2) = typeName BitmapPort →
  Entry_String e1 = Entry_String e2 ↔ Port e1 = Port e2.
Proof.
  intros Ht1 Ht2. unfold Entry_String. rewrite Ht1, Ht2.
  rewrite !(decide_False (P := typeName BitmapPort = typeName HashIpPort)) by done.
  rewrite !(decide_False (P := typeName BitmapPort = typeName HashIp)) by done.
  rewrite !decide_True by done. split; [apply Itoa_inj|by intros ->].
Qed.

Lemma Entry_String_BitmapPort_witness :
  Entry_String (mkEntry "10.0.0.1" 53 "udp" BitmapPort)
  = Entry_String (mkEntry "10.0.0.2" 53 "tcp" BitmapPort).
Proof.
  exact (proj2 (Entry_String_BitmapPort (mkEntry "10.0.0.1" 53 "udp" BitmapPort)
                  (mkEntry "10.0.0.2" 53 "tcp" BitmapPort) eq_refl eq_refl) eq_refl).
Defined.

(** ** [runner.ListSets] *)

(** X19: when the command works, [ListSets] returns one name at least,
    even for no output at all; and for an output that ends with a newline
    the last name returned is the empty string. *)
Theorem ListSets_never_empty {S : Type}
    (exec : list string → S → (string * option error) * S) (s : S)
    (out : string) (s1 : S) :
  exec [IPSetCmd; "list"; "-n"] s = ((out, None), s1) →
  (runner_ListSets exec s).1.2 = None
  ∧ (runner_ListSets exec s).1.1 ≠ []
  ∧ (∀ body, out = body +:+ String "010" "" →
       last (runner_ListSets exec s).1.1 = Some "").
Proof.
  intros Hexec. unfold runner_ListSets. rewrite Hexec. cbn [fst snd].
  split; [done|]. split; [apply Split_nonempty|].
  intros body ->. rewrite Split_snoc_sep. apply last_snoc.
Qed.

Lemma ListSets_never_empty_witness :
  last (runner_ListSets (execOk "KUBE-A
KUBE-B
") tt).1.1 = Some "".
Proof.
  exact (proj2 (proj2 (ListSets_never_empty (execOk "KUBE-A
KUBE-B
") tt _ tt eq_refl)) "KUBE-A
KUBE-B" eq_refl).
Defined.

(** ** [runner.CreateSet] *)

Section CreateSet.
Context {S : Type}.
Variable exec : list string → S → (string * option error) * S.

Lemma runner_CreateSet_unfold (set : IPSet) (ignoreExistErr : bool) (s : S) :
  runner_CreateSet exec set ignoreExistErr s
  = if bool_decide (String.length (HashFamily (filled set)) ≠ 0)
       && bool_decide (HashFamily (filled set) ≠ ProtocolFamilyIPV4)
       && bool_decide (HashFamily (filled set) ≠ ProtocolFamilyIPV6)
    then
      ((filled set,
        Some ("Currently supported protocol families are: inet and inet6, "
              +:+ HashFamily (filled set) +:+ " is not supported")), s)
    else if negb (IsValidIPSetType (SetType (typed (filled set)))) then
      ((typed (filled set),
        Some ("Currently supported ipset types are: "
              +:+ "[hash:ip,port hash:ip bitmap:port], "
              +:+ typeName (SetType (typed (filled set))) +:+ " is not supported")), s)
    else runner_createSet exec (typed (filled set)) ignoreExistErr s.
Proof.
  destruct set as [nm t fam hs me pr].
  unfold runner_CreateSet, filled, typed, setHashSize, setMaxElem, setHashFamily,
    setSetType.
  cbn [Name SetType HashFamily HashSize MaxElem PortRange].
  destruct (decide (hs = 0%Z)); cbn [Name SetType HashFamily HashSize MaxElem PortRange];
  destruct (decide (me = 0%Z)); cbn [Name SetType HashFamily HashSize MaxElem PortRange];
  destruct (decide (fam = "")); cbn [Name SetType HashFamily HashSize MaxElem PortRange];
  destruct (decide (String.length (typeName t) = 0));
  reflexivity.
Qed.

Lemma runner_createSet_unfold (set : IPSet) (ignoreExistErr : bool) (s : S) :
  runner_createSet exec set ignoreExistErr s
  = if isBitmapPort set && negb (validatePortRange (PortRange (ranged set))) then
      ((ranged set,
        Some ("invalid port range for bitmap:port type ip set: "
              +:+ PortRange (ranged set) +:+ ", expect: a-b")), s)
    else
      let r := exec (IPSetCmd :: createArgs (ranged set) ignoreExistErr) s in
      ((ranged set,
        (λ e, "error creating ipset " +:+ Name set +:+ ", error: " +:+ e) <$> r.1.2),
       r.2).
Proof.
  destruct set as [nm t fam hs me pr].
  unfold runner_createSet, ranged, setPortRange, isBitmapPort.
  cbn [Name SetType HashFamily HashSize MaxElem PortRange].
  destruct (bool_decide (typeName t = typeName BitmapPort)
            && bool_decide (String.length pr = 0)) eqn:Hdef;
    cbn [Name SetType HashFamily HashSize MaxElem PortRange].
  - destruct (bool_decide _ && negb _); [reflexivity|].
    destruct (exec _ s) as [[out [e|]] s1]; reflexivity.
  - destruct (bool_decide _ && negb _); [reflexivity|].
    destruct (exec _ s) as [[out [e|]] s1]; reflexivity.
Qed.
(** The three checks, read on the description as the caller gave it. *)
Lemma family_check (set : IPSet) :
  bool_decide (String.length (HashFamily (filled set)) ≠ 0)
  && bool_decide (HashFamily (filled set) ≠ ProtocolFamilyIPV4)
  && bool_decide (HashFamily (filled set) ≠ ProtocolFamilyIPV6)
  = negb (bool_decide (HashFamily set ∈ [""; ProtocolFamilyIPV4; ProtocolFamilyIPV6])).
Proof.
  cbn [filled HashFamily]. destruct (decide (HashFamily set = "")) as [->|Hne]; [done|].
  rewrite (bool_decide_eq_true_2 (String.length (HashFamily set) ≠ 0))
    by (destruct (HashFamily set); [done|simpl; lia]).
  cbn [andb].
  destruct (decide (HashFamily set = ProtocolFamilyIPV4)) as [->|H4]; [done|].
  destruct (decide (HashFamily set = ProtocolFamilyIPV6)) as [->|H6]; [done|].
  rewrite !bool_decide_eq_true_2 by done.
  rewrite bool_decide_eq_false_2; [done|]. set_solver.
Qed.

Lemma typeName_typed (set : IPSet) :
  typeName (SetType (typed set))
  = if decide (typeName (SetType set) = "") then typeName HashIpPort
    else typeName (SetType set).
Proof.
  cbn [typed SetType].
  destruct (decide (String.length (typeName (SetType set)) = 0)) as [Hlen|Hlen].
  - rewrite decide_True; [done|]. by destruct (typeName (SetType set)).
  - rewrite decide_False; [done|]. intros Heq. by rewrite Heq in Hlen.
Qed.

Lemma type_check (set : IPSet) :
  IsValidIPSetType (SetType (typed set))
  = bool_decide (typeName (SetType set)
                 ∈ [""; typeName HashIpPort; typeName HashIp; typeName BitmapPort]).
Proof.
  unfold IsValidIPSetType, ValidIPSetTypes. cbn [existsb]. rewrite typeName_typed.
  destruct (decide (typeName (SetType set) = "")) as [->|Hne]; [done|].
  destruct (decide (typeName (SetType set) = typeName HashIpPort)) as [->|H1]; [done|].
  destruct (decide (typeName (SetType set) = typeName HashIp)) as [->|H2]; [done|].
  destruct (decide (typeName (SetType set) = typeName BitmapPort)) as [->|H3]; [done|].
  rewrite !bool_decide_eq_false_2; [done|set_solver|done|done|done].
Qed.

Lemma isBitmapPort_typed (set : IPSet) :
  isBitmapPort (typed set) = bool_decide (typeName (SetType set) = typeName BitmapPort).
Proof.
  unfold isBitmapPort. rewrite typeName_typed.
  destruct (decide (typeName (SetType set) = "")) as [->|Hne]; done.
Qed.

Lemma range_check (set : IPSet) :
  isBitmapPort set && negb (validatePortRange (PortRange (ranged set)))
  = negb (negb (isBitmapPort set) || bool_decide (PortRange set = "")
          || validatePortRange (PortRange set)).
Proof.
  cbn [ranged PortRange]. destruct (isBitmapPort set); [|done]. cbn [andb negb orb].
  destruct (decide (PortRange set = "")) as [->|Hne]; [done|].
  rewrite (bool_decide_eq_false_2 (String.length (PortRange set) = 0))
    by (destruct (PortRange set); [done|simpl; lia]).
  by rewrite (bool_decide_eq_false_2 (PortRange set = "")).
Qed.

Lemma runner_CreateSet_valid (set : IPSet) (ignoreExistErr : bool) (s : S) :
  validDescription set = true →
  runner_CreateSet exec set ignoreExistErr s
  = let d := ranged (typed (filled set)) in
    let r := exec (IPSetCmd :: createArgs d ignoreExistErr) s in
    ((d, (λ e, "error creating ipset " +:+ Name set +:+ ", error: " +:+ e) <$> r.1.2),
     r.2).
Proof.
  unfold validDescription. rewrite !andb_true_iff. intros [[Hfam Htype] Hrange].
  rewrite runner_CreateSet_unfold, family_check, Hfam. cbn [negb].
  rewrite type_check. cbn [filled SetType]. rewrite Htype. cbn [negb].
  rewrite runner_createSet_unfold, range_check, isBitmapPort_typed.
  cbn [typed filled PortRange SetType]. rewrite Hrange. reflexivity.
Qed.

Lemma runner_CreateSet_invalid (set : IPSet) (ignoreExistErr : bool) (s : S) :
  validDescription set = false →
  ∃ d e, runner_CreateSet exec set ignoreExistErr s = ((d, Some e), s).
Proof.
  unfold validDescription. intros Hbad.
  rewrite runner_CreateSet_unfold, family_check.
  destruct (bool_decide (HashFamily set ∈ _)); cbn [negb]; [|eauto].
  rewrite type_check. cbn [filled SetType].
  destruct (bool_decide (typeName (SetType set) ∈ _)); cbn [negb]; [|eauto].
  rewrite runner_createSet_unfold, range_check, isBitmapPort_typed.
  cbn [typed filled PortRange SetType]. cbn [andb] in Hbad. rewrite Hbad. eauto.
Qed.
End CreateSet.

(** X20: a description that fails a check of [CreateSet] (protocol family,
    set type, or port range of a port set) is turned down with an error
    before any command is run. *)
Theorem CreateSet_invalid_runs_nothing {S : Type}
    (exec : list string → S → (string * option error) * S)
    (set : IPSet) (ignoreExistErr : bool) (s : S) (cmds : list (list string)) :
  validDescription set = false →
  let r := runner_CreateSet (logged exec) set ignoreExistErr (s, cmds) in
  is_Some r.1.2 ∧ r.2 = (s, cmds).
Proof.
  intros Hbad r. subst r.
  destruct (runner_CreateSet_invalid (logged exec) set ignoreExistErr (s, cmds) Hbad)
    as (d & e & ->).
  split; [by eexists|done].
Qed.

Lemma CreateSet_invalid_runs_nothing_witness :
  let r := runner_CreateSet (logged (execOk ""))
             {| Name := "KUBE-PORTS"; SetType := BitmapPort; HashFamily := "";
                HashSize := 0; MaxElem := 0; PortRange := "1000-" |}
             true (tt, []) in
  is_Some r.1.2 ∧ r.2 = (tt, []).
Proof.
  exact (CreateSet_invalid_runs_nothing (execOk "")
           {| Name := "KUBE-PORTS"; SetType := BitmapPort; HashFamily := "";
              HashSize := 0; MaxElem := 0; PortRange := "1000-" |}
           true tt [] eq_refl).
Defined.



Lemma filled_filled (set : IPSet) : filled (filled set) = filled set.
Proof.
  destruct set as [nm t fam hs me pr]. unfold filled.
  cbn [Name SetType HashFamily HashSize MaxElem PortRange]. f_equal.
  - destruct (decide (fam = "")); [done|]. by rewrite decide_False.
  - destruct (decide (hs = 0%Z)); [done|]. by rewrite decide_False.
  - destruct (decide (me = 0%Z)); [done|]. by rewrite decide_False.
Qed.

Lemma typed_typed (set : IPSet) : typed (typed set) = typed set.
Proof.
  destruct set as [nm t fam hs me pr]. unfold typed.
  cbn [Name SetType HashFamily HashSize MaxElem PortRange]. f_equal.
  destruct (decide (String.length (typeName t) = 0)); [done|]. by rewrite decide_False.
Qed.

Lemma ranged_ranged (set : IPSet) : ranged (ranged set) = ranged set.
Proof.
  destruct set as [nm t fam hs me pr]. unfold ranged, isBitmapPort.
  cbn [Name SetType HashFamily HashSize MaxElem PortRange]. f_equal.
  destruct (bool_decide (typeName t = typeName BitmapPort)); [|done]. cbn [andb].
  destruct (bool_decide (String.length pr = 0)) eqn:E; [by vm_compute|by rewrite E].
Qed.

Lemma filled_typed (set : IPSet) : filled (typed set) = typed (filled set).
Proof. by destruct set. Qed.

Lemma filled_ranged (set : IPSet) : filled (ranged set) = ranged (filled set).
Proof. by destruct set. Qed.

Lemma typed_ranged (set : IPSet) : typed (ranged set) = ranged (typed set).
Proof.
  destruct set as [nm t fam hs me pr]. unfold typed, ranged, isBitmapPort.
  cbn [Name SetType HashFamily HashSize MaxElem PortRange]. f_equal.
  destruct (decide (String.length (typeName t) = 0)) as [Hlen|]; [|done].
  assert (typeName t = "") as Hempty by (by destruct (typeName t)).
  rewrite Hempty. done.
Qed.

(** The description [CreateSet] leaves behind, whatever the outcome. *)
Lemma runner_CreateSet_description {S : Type}
    (exec : list string → S → (string * option error) * S)
    (set : IPSet) (ignoreExistErr : bool) (s : S) :
  let d := (runner_CreateSet exec set ignoreExistErr s).1.1 in
  (d = filled set
   ∧ HashFamily set ∉ [""; ProtocolFamilyIPV4; ProtocolFamilyIPV6])
  ∨ (d = typed (filled set)
     ∧ HashFamily set ∈ [""; ProtocolFamilyIPV4; ProtocolFamilyIPV6]
     ∧ IsValidIPSetType (SetType (typed (filled set))) = false)
  ∨ (d = ranged (typed (filled set))
     ∧ HashFamily set ∈ [""; ProtocolFamilyIPV4; ProtocolFamilyIPV6]
     ∧ IsValidIPSetType (SetType (typed (filled set))) = true).
Proof.
  intros d. subst d. rewrite runner_CreateSet_unfold, family_check.
  destruct (decide (HashFamily set ∈ [""; ProtocolFamilyIPV4; ProtocolFamilyIPV6]))
    as [Hfam|Hfam].
  2:{ rewrite bool_decide_eq_false_2 by done. by left. }
  rewrite bool_decide_eq_true_2 by done. cbn [negb]. right.
  destruct (IsValidIPSetType _) eqn:Htype; cbn [negb]; [right|by left].
  rewrite runner_createSet_unfold. by destruct (_ && _).
Qed.

(** X22: [CreateSet] writes its defaults into the description and keeps
    what the caller set: the name is kept, a zero hash size becomes 1024, a
    zero maximum becomes 65536, an empty family becomes inet, whatever the
    outcome.  The description it leaves is one it would leave unchanged: a
    second [CreateSet] on it writes nothing more. *)
Theorem CreateSet_defaults_once {S : Type}
    (exec exec' : list string → S → (string * option error) * S)
    (set : IPSet) (ign ign' : bool) (s s' : S) :
  let d := (runner_CreateSet exec set ign s).1.1 in
  Name d = Name set
  ∧ HashSize d = (if decide (HashSize set = 0%Z) then 1024%Z else HashSize set)
  ∧ MaxElem d = (if decide (MaxElem set = 0%Z) then 65536%Z else MaxElem set)
  ∧ HashFamily d = (if decide (HashFamily set = "") then ProtocolFamilyIPV4
                    else HashFamily set)
  ∧ (runner_CreateSet exec' d ign' s').1.1 = d.
Proof.
  intros d.
  destruct (runner_CreateSet_description exec set ign s)
    as [[Hd Hfam]|[(Hd & Hfam & Htype)|(Hd & Hfam & Htype)]]; fold d in Hd;
    rewrite Hd; (split; [done|]); (split; [done|]); (split; [done|]); (split; [done|]).
  - rewrite runner_CreateSet_unfold, filled_filled, family_check.
    by rewrite bool_decide_eq_false_2.
  - rewrite runner_CreateSet_unfold, filled_typed, filled_filled, typed_typed.
    change (HashFamily (typed (filled set))) with (HashFamily (filled set)).
    rewrite family_check, bool_decide_eq_true_2 by done. cbn [negb].
    by rewrite Htype.
  - rewrite runner_CreateSet_unfold, filled_ranged, filled_typed, filled_filled,
      typed_ranged, typed_typed.
    change (HashFamily (ranged (typed (filled set)))) with (HashFamily (filled set)).
    rewrite family_check, bool_decide_eq_true_2 by done. cbn [negb].
    change (SetType (ranged (typed (filled set)))) with (SetType (typed (filled set))).
    rewrite Htype. cbn [negb].
    rewrite runner_createSet_unfold, ranged_ranged. by destruct (_ && _).
Qed.

End ipset_proofs.

(** * Properties of [pkg/proxy/ipvs] *)

Module ipvs_proofs.
Import ipset ipvs.

#[local] Set Warnings "-clear-no-such-hyp".

(** ** [sets.String] *)

Lemma foldl_Insert (l : list string) (X : sets.String) :
  foldl sets.Insert X l = list_to_set l ∪ X.
Proof.
  revert X. induction l as [|x l IH]; intros X; simpl.
  - set_solver.
  - rewrite IH. unfold sets.Insert. set_solver.
Qed.

Lemma Insert_all (l : list string) :
  foldl sets.Insert sets.NewString l = list_to_set l.
Proof. rewrite foldl_Insert. unfold sets.NewString. set_solver. Qed.

Lemma Equal_spec (s1 s2 : sets.String) : sets.Equal s1 s2 = true ↔ s1 = s2.
Proof.
  unfold sets.Equal, sets.IsSuperset.
  rewrite andb_true_iff, !bool_decide_eq_true. split.
  - intros [Hsz Hsub]. symmetry. apply set_subseteq_size_eq; [done|lia].
  - by intros ->.
Qed.

Lemma elem_of_Difference (s s2 : sets.String) (x : string) :
  x ∈ sets.Difference s s2 ↔ x ∈ s ∧ x ∉ s2.
Proof.
  unfold sets.Difference, sets.Has. rewrite elem_of_filter.
  rewrite bool_decide_eq_false. tauto.
Qed.

Lemma Difference_same (s : sets.String) : sets.Difference s s = ∅.
Proof.
  apply set_eq. intros x. rewrite elem_of_Difference, elem_of_empty. tauto.
Qed.

Lemma List_Permutation (s : sets.String) : sets.List s ≡ₚ elements s.
Proof. apply merge_sort_Permutation. Qed.

Lemma elem_of_List (s : sets.String) (x : string) : x ∈ sets.List s ↔ x ∈ s.
Proof. by rewrite List_Permutation, elem_of_elements. Qed.

Lemma NoDup_List (s : sets.String) : NoDup (sets.List s).
Proof. rewrite List_Permutation. apply NoDup_elements. Qed.

Lemma List_empty : sets.List ∅ = [].
Proof. reflexivity. Qed.

Lemma strLe_total : Total sets.strLe.
Proof. intros a b. apply String.leb_total. Qed.

(** [List] gives the members in increasing order. *)
Lemma Sorted_List (s : sets.String) : Sorted sets.strLe (sets.List s).
Proof. apply (@Sorted_merge_sort _ sets.strLe _ strLe_total). Qed.

(** ** The loops of [syncIPSetEntries] on a recording handle *)

Section loops.
Context {S : Type}.
Implicit Types (set : IPSet S) (w : World (S * Trace)).

Lemma delLegacy_recorded set entry w :
  delLegacy (recorded set) entry w
  = let r := DelEntry (handle set) entry (Name (IPSet_ set)) (store w).1 in
    let c := (CallDelEntry entry (Name (IPSet_ set)), r.1) in
    (tt, mkWorld (r.2, (store w).2 ++ [c]) (glog w ++ omap logOf [c])).
Proof.
  unfold delLegacy, bind, call. simpl.
  destruct (DelEntry _ _ _ _) as [[e|] s1]; reflexivity.
Qed.

Lemma addActive_recorded set entry w :
  addActive (recorded set) entry w
  = let r := AddEntry (handle set) entry (Name (IPSet_ set)) true (store w).1 in
    let c := (CallAddEntry entry (Name (IPSet_ set)) true, r.1) in
    (tt, mkWorld (r.2, (store w).2 ++ [c]) (glog w ++ omap logOf [c])).
Proof.
  unfold addActive, bind, call. simpl.
  destruct (AddEntry _ _ _ _ _) as [[e|] s1]; reflexivity.
Qed.

(** A loop whose body makes one call and logs its outcome makes one call
    per entry, in order, and goes on whatever each call returns. *)
Lemma forRange_recorded (body : string → M (S * Trace) unit) (mk : string → Call)
    (entries : list string) w :
  (∀ e w0, ∃ r,
      (store (body e w0).2).2 = (store w0).2 ++ [(mk e, r)]
      ∧ glog (body e w0).2 = glog w0 ++ omap logOf [(mk e, r)]) →
  ∃ tr,
    (store (forRange entries body w).2).2 = (store w).2 ++ tr
    ∧ tr.*1 = mk <$> entries
    ∧ glog (forRange entries body w).2 = glog w ++ omap logOf tr.
Proof.
  intros Hbody. revert w. induction entries as [|e rest IH]; intros w.
  { exists []. simpl. by rewrite !app_nil_r. }
  cbn [forRange]. unfold bind.
  destruct (Hbody e w) as (r & Htr & Hlog).
  destruct (body e w) as [[] w1]. cbn [snd] in Htr, Hlog.
  destruct (IH w1) as (tr & Htr' & Hcalls & Hlog').
  exists ((mk e, r) :: tr). split; [|split].
  - rewrite Htr', Htr. by rewrite <-app_assoc.
  - rewrite fmap_cons. cbn [fst]. by rewrite Hcalls.
  - rewrite Hlog', Hlog. rewrite <-app_assoc. f_equal.
    change ((mk e, r) :: tr) with ([(mk e, r)] ++ tr).
    by rewrite omap_app.
Qed.

Lemma forRange_delLegacy set (entries : list string) w :
  ∃ tr,
    (store (forRange entries (delLegacy (recorded set)) w).2).2 = (store w).2 ++ tr
    ∧ tr.*1 = delCalls (Name (IPSet_ set)) entries
    ∧ glog (forRange entries (delLegacy (recorded set)) w).2 = glog w ++ omap logOf tr.
Proof.
  apply forRange_recorded. intros e w0. rewrite delLegacy_recorded. eauto.
Qed.

Lemma forRange_addActive set (entries : list string) w :
  ∃ tr,
    (store (forRange entries (addActive (recorded set)) w).2).2 = (store w).2 ++ tr
    ∧ tr.*1 = addCalls (Name (IPSet_ set)) entries
    ∧ glog (forRange entries (addActive (recorded set)) w).2 = glog w ++ omap logOf tr.
Proof.
  apply forRange_recorded. intros e w0. rewrite addActive_recorded. eauto.
Qed.

Lemma syncIPSetEntries_listed set (s : S) (live : list string) (s1 : S)
    (tr0 : Trace) (lg : list (Level * Message)) :
  ListEntries (handle set) (Name (IPSet_ set)) s = ((live, None), s1) →
  syncIPSetEntries (recorded set) (mkWorld (s, tr0) lg)
  = (if negb (sets.Equal (activeEntries set) (list_to_set live)) then
       forRange (sets.List (sets.Difference (list_to_set live) (activeEntries set)))
                (delLegacy (recorded set)) ;;;
       forRange (sets.List (sets.Difference (activeEntries set) (list_to_set live)))
                (addActive (recorded set))
     else ret tt)
      (mkWorld (s1, tr0 ++ [(CallListEntries (Name (IPSet_ set)), None)]) lg).
Proof.
  intros Hlist. unfold syncIPSetEntries, bind, call. cbn.
  rewrite Hlist. cbn. by rewrite Insert_all.
Qed.

(** One pass after a listing that worked: the listing, then a trace of
    the deletions and the additions of the diff, each with its outcome
    in the log. *)
Lemma syncRun_trace set (s : S) (live : list string) (s1 : S) :
  ListEntries (handle set) (Name (IPSet_ set)) s = ((live, None), s1) →
  ∃ tr,
    (store (syncRun set s)).2 = (CallListEntries (Name (IPSet_ set)), None) :: tr
    ∧ tr.*1
      = delCalls (Name (IPSet_ set))
          (sets.List (sets.Difference (list_to_set live) (activeEntries set)))
        ++ addCalls (Name (IPSet_ set))
             (sets.List (sets.Difference (activeEntries set) (list_to_set live)))
    ∧ glog (syncRun set s) = omap logOf tr.
Proof.
  intros Hlist. unfold syncRun.
  rewrite (syncIPSetEntries_listed set s live s1 [] [] Hlist).
  destruct (sets.Equal (activeEntries set) (list_to_set live)) eqn:Heq; cbn [negb].
  - apply Equal_spec in Heq. rewrite <-Heq, Difference_same.
    exists []. by rewrite List_empty.
  - unfold bind.
    match goal with
    | |- context [forRange ?es (delLegacy ?rs) ?w0] =>
        destruct (forRange_delLegacy set es w0) as (trD & HtrD & HcD & HlogD);
        destruct (forRange es (delLegacy rs) w0) as [[] wD]
    end.
    cbn [snd] in HtrD, HcD, HlogD.
    match goal with
    | |- context [forRange ?es (addActive ?rs) ?w0] =>
        destruct (forRange_addActive set es w0) as (trA & HtrA & HcA & HlogA)
    end.
    exists (trD ++ trA). split; [|split].
    + rewrite HtrA, HtrD. reflexivity.
    + by rewrite fmap_app, HcD, HcA.
    + rewrite HlogA, HlogD. cbn. by rewrite omap_app.
Qed.

(** One pass after a listing that failed: nothing but the listing. *)
Lemma syncRun_list_error set (s : S) (l : list string) (e : error) (s1 : S) :
  ListEntries (handle set) (Name (IPSet_ set)) s = ((l, Some e), s1) →
  syncRun set s
  = mkWorld (s1, [(CallListEntries (Name (IPSet_ set)), Some e)])
            [(ErrorLevel, FailedToList e)].
Proof.
  intros Hlist. unfold syncRun, syncIPSetEntries. unfold bind at 1, call at 1.
  cbn. rewrite Hlist. reflexivity.
Qed.

Lemma syncRun_calls set (s : S) (live : list string) (s1 : S) :
  ListEntries (handle set) (Name (IPSet_ set)) s = ((live, None), s1) →
  callsOf (syncRun set s)
  = CallListEntries (Name (IPSet_ set))
    :: delCalls (Name (IPSet_ set))
         (sets.List (sets.Difference (list_to_set live) (activeEntries set)))
    ++ addCalls (Name (IPSet_ set))
         (sets.List (sets.Difference (activeEntries set) (list_to_set live))).
Proof.
  intros Hlist. destruct (syncRun_trace set s live s1 Hlist) as (tr & Htr & Hc & _).
  unfold callsOf. rewrite Htr. cbn. by rewrite Hc.
Qed.
End loops.

(** ** [syncIPSetEntries] *)

Lemma elem_of_delCalls (nm : string) (entries : list string) (c : Call) :
  c ∈ delCalls nm entries → ∃ e, e ∈ entries ∧ entryOf c = Some e.
Proof.
  unfold delCalls. intros Hc. apply list_elem_of_fmap in Hc as (e & -> & He). eauto.
Qed.

Lemma elem_of_addCalls (nm : string) (entries : list string) (c : Call) :
  c ∈ addCalls nm entries → ∃ e, e ∈ entries ∧ entryOf c = Some e.
Proof.
  unfold addCalls. intros Hc. apply list_elem_of_fmap in Hc as (e & -> & He). eauto.
Qed.

(** C3: after a listing that worked, one pass makes the listing call, then
    one [DelEntry] call for each entry that is live and not desired, then
    one [AddEntry] call for each entry that is desired and not live, each
    entry once, and no call about an entry that is both live and desired. *)
Theorem syncIPSetEntries_minimal_diff {S : Type} (set : IPSet S) (s : S)
    (live : list string) (s1 : S) :
  ListEntries (handle set) (Name (IPSet_ set)) s = ((live, None), s1) →
  ∃ dels adds : list string,
    callsOf (syncRun set s)
    = CallListEntries (Name (IPSet_ set))
      :: delCalls (Name (IPSet_ set)) dels ++ addCalls (Name (IPSet_ set)) adds
    ∧ NoDup dels ∧ NoDup adds
    ∧ (∀ e, e ∈ dels ↔ e ∈ live ∧ e ∉ activeEntries set)
    ∧ (∀ e, e ∈ adds ↔ e ∈ activeEntries set ∧ e ∉ live)
    ∧ (∀ e, e ∈ live → e ∈ activeEntries set →
         ∀ c, c ∈ callsOf (syncRun set s) → entryOf c ≠ Some e).
Proof.
  intros Hlist.
  set (dels := sets.List (sets.Difference (list_to_set live) (activeEntries set))).
  set (adds := sets.List (sets.Difference (activeEntries set) (list_to_set live))).
  assert (∀ e, e ∈ dels ↔ e ∈ live ∧ e ∉ activeEntries set) as Hdels.
  { intros e. unfold dels. rewrite elem_of_List, elem_of_Difference.
    by rewrite elem_of_list_to_set. }
  assert (∀ e, e ∈ adds ↔ e ∈ activeEntries set ∧ e ∉ live) as Hadds.
  { intros e. unfold adds. rewrite elem_of_List, elem_of_Difference.
    by rewrite elem_of_list_to_set. }
  exists dels, adds. rewrite (syncRun_calls set s live s1 Hlist). fold dels adds.
  split; [done|]. split; [apply NoDup_List|]. split; [apply NoDup_List|].
  split; [done|]. split; [done|].
  intros e Hlive Hdesired c Hc Hentry.
  apply elem_of_cons in Hc as [->|Hc]; [done|].
  apply elem_of_app in Hc as [Hc|Hc].
  - apply elem_of_delCalls in Hc as (e' & He' & Heq).
    rewrite Heq in Hentry. injection Hentry as ->. apply Hdels in He'. tauto.
  - apply elem_of_addCalls in Hc as (e' & He' & Heq).
    rewrite Heq in Hentry. injection Hentry as ->. apply Hadds in He'. tauto.
Qed.

Lemma syncIPSetEntries_minimal_diff_witness :
  ∃ dels adds : list string,
    callsOf (syncRun (kubeX memStore {[ "A"; "B" ]}) ["B"; "C"])
    = CallListEntries "KUBE-X" :: delCalls "KUBE-X" dels ++ addCalls "KUBE-X" adds
    ∧ NoDup dels ∧ NoDup adds
    ∧ (∀ e, e ∈ dels ↔ e ∈ ["B"; "C"] ∧ e ∉ ({[ "A"; "B" ]} : gset string))
    ∧ (∀ e, e ∈ adds ↔ e ∈ ({[ "A"; "B" ]} : gset string) ∧ e ∉ ["B"; "C"])
    ∧ (∀ e, e ∈ ["B"; "C"] → e ∈ ({[ "A"; "B" ]} : gset string) →
         ∀ c, c ∈ callsOf (syncRun (kubeX memStore {[ "A"; "B" ]}) ["B"; "C"]) →
              entryOf c ≠ Some e).
Proof.
  exact (syncIPSetEntries_minimal_diff (kubeX memStore {[ "A"; "B" ]})
           ["B"; "C"] ["B"; "C"] ["B"; "C"] eq_refl).
Defined.

(** The example of C3, on any handle: desired A and B, live B and C give
    one deletion of C and one addition of A, and nothing about B. *)
Lemma syncIPSetEntries_AB_BC {S : Type} (h : Interface S) (s s1 : S) :
  ListEntries h "KUBE-X" s = ((["B"; "C"], None), s1) →
  callsOf (syncRun (kubeX h {[ "A"; "B" ]}) s)
  = [CallListEntries "KUBE-X"; CallDelEntry "C" "KUBE-X"; CallAddEntry "A" "KUBE-X" true].
Proof.
  intros Hlist. by rewrite (syncRun_calls (kubeX h {[ "A"; "B" ]}) s _ s1 Hlist).
Qed.

(** C7: after a listing that worked, the calls of a pass are those of the
    diff whatever any deletion or addition returns, so a failure stops
    nothing; a failure leaves its line in the log and nothing else.  A
    second pass with the same desired entries and the same listing makes
    the same calls again, those that failed included. *)
Theorem syncIPSetEntries_best_effort {S : Type} (set : IPSet S) (s : S)
    (live : list string) (s1 : S) :
  ListEntries (handle set) (Name (IPSet_ set)) s = ((live, None), s1) →
  let w1 := syncRun set s in
  callsOf w1
  = CallListEntries (Name (IPSet_ set))
    :: delCalls (Name (IPSet_ set))
         (sets.List (sets.Difference (list_to_set live) (activeEntries set)))
    ++ addCalls (Name (IPSet_ set))
         (sets.List (sets.Difference (activeEntries set) (list_to_set live)))
  ∧ glog w1 = omap logOf (store w1).2
  ∧ (∀ s2, ListEntries (handle set) (Name (IPSet_ set)) (store w1).1
             = ((live, None), s2) →
       callsOf (syncRun set (store w1).1) = callsOf w1
       ∧ ∀ c e, (c, Some e) ∈ (store w1).2 → c ∈ callsOf (syncRun set (store w1).1)).
Proof.
  intros Hlist w1. subst w1.
  split; [by apply (syncRun_calls set s live s1)|]. split.
  - destruct (syncRun_trace set s live s1 Hlist) as (tr & Htr & _ & Hlog).
    rewrite Htr, Hlog. reflexivity.
  - intros s2 Hagain.
    assert (callsOf (syncRun set (store (syncRun set s)).1) = callsOf (syncRun set s))
      as Hsame.
    { rewrite (syncRun_calls set _ live s2 Hagain).
      by rewrite (syncRun_calls set s live s1 Hlist). }
    split; [done|]. intros c e Hin. rewrite Hsame. unfold callsOf.
    apply list_elem_of_fmap. by exists (c, Some e).
Qed.

(** A store whose additions fail: both additions are attempted and logged
    as failed, the store stays as it was, and the next pass attempts both
    again. *)
Lemma syncIPSetEntries_best_effort_witness :
  let set := kubeX addFails {[ "A"; "B"; "D" ]} in
  let w1 := syncRun set ["B"] in
  callsOf w1
  = [CallListEntries "KUBE-X"; CallAddEntry "A" "KUBE-X" true;
     CallAddEntry "D" "KUBE-X" true]
  ∧ glog w1
    = [(ErrorLevel, FailedToAdd "A" "KUBE-X" "set is full");
       (ErrorLevel, FailedToAdd "D" "KUBE-X" "set is full")]
  ∧ callsOf (syncRun set (store w1).1) = callsOf w1.
Proof.
  intros set w1.
  destruct (syncIPSetEntries_best_effort set ["B"] ["B"] ["B"] eq_refl)
    as (Hcalls & Hlog & Hagain).
  split; [exact Hcalls|]. split; [exact Hlog|].
  exact (proj1 (Hagain ["B"] eq_refl)).
Defined.

(** ** [isEmpty] *)

(** C10: [isEmpty] drops the error of the listing and answers from the
    entries alone: true exactly when the list returned is empty, so true
    for a listing that fails and returns no entries. *)
Theorem isEmpty_ignores_error {S : Type} (set : IPSet S) (w : World S)
    (entries : list string) (err : option error) (s1 : S) :
  ListEntries (handle set) (Name (IPSet_ set)) (store w) = ((entries, err), s1) →
  isEmpty set w = (bool_decide (entries = []), mkWorld s1 (glog w))
  ∧ (entries = [] → (isEmpty set w).1 = true).
Proof.
  intros Hlist. unfold isEmpty, bind, call, ret. rewrite Hlist. cbn.
  split.
  - f_equal. apply bool_decide_ext. apply length_zero_iff_nil.
  - by intros ->.
Qed.

(** The store holds A, its listing fails, and the set is reported empty. *)
Lemma isEmpty_ignores_error_witness :
  (isEmpty (kubeX listFails ∅) (mkWorld ["A"] [])).1 = true.
Proof.
  exact (proj2 (isEmpty_ignores_error (kubeX listFails ∅) (mkWorld ["A"] [])
                  [] (Some "kernel error") ["A"] eq_refl) eq_refl).
Defined.

(** With the [runner] handle, a listing whose command fails returns no
    entries, so the set is reported empty whatever it holds. *)
Lemma isEmpty_runner_command_fails {S : Type}
    (exec : list string → S → (string * option error) * S)
    (members : string → list string) (base : ipset.IPSet) (desired : sets.String)
    (w : World S) (out : string) (e : error) (s1 : S) :
  exec [IPSetCmd; "list"; Name base] (store w) = ((out, Some e), s1) →
  (isEmpty {| IPSet_ := base; activeEntries := desired;
              handle := runner exec members |} w).1 = true.
Proof.
  intros Hexec. unfold isEmpty, bind, call, ret. cbn.
  unfold runner_ListEntries. destruct (decide _); [done|]. by rewrite Hexec.
Qed.

(** ** More on [syncIPSetEntries] *)

(** X9: when the listing fails, a pass makes no other call: it writes one
    error line and returns, whatever entries came back with the error and
    whatever is desired. *)
Theorem syncIPSetEntries_list_failure {S : Type} (set : IPSet S) (s : S)
    (l : list string) (e : error) (s1 : S) :
  ListEntries (handle set) (Name (IPSet_ set)) s = ((l, Some e), s1) →
  callsOf (syncRun set s) = [CallListEntries (Name (IPSet_ set))]
  ∧ glog (syncRun set s) = [(ErrorLevel, FailedToList e)]
  ∧ (store (syncRun set s)).1 = s1.
Proof. intros Hlist. by rewrite (syncRun_list_error set s l e s1 Hlist). Qed.

Lemma syncIPSetEntries_list_failure_witness :
  callsOf (syncRun (kubeX listFails {[ "A" ]}) ["B"]) = [CallListEntries "KUBE-X"]
  ∧ glog (syncRun (kubeX listFails {[ "A" ]}) ["B"])
    = [(ErrorLevel, FailedToList "kernel error")]
  ∧ (store (syncRun (kubeX listFails {[ "A" ]}) ["B"])).1 = ["B"].
Proof.
  exact (syncIPSetEntries_list_failure (kubeX listFails {[ "A" ]}) ["B"] []
           "kernel error" ["B"] eq_refl).
Defined.

(** X10: when the live entries, as a set, are the desired ones, a pass is
    the listing and nothing else: no deletion, no addition, no log line;
    order and repetitions in the listing do not matter. *)
Theorem syncIPSetEntries_in_sync {S : Type} (set : IPSet S) (s : S)
    (live : list string) (s1 : S) :
  ListEntries (handle set) (Name (IPSet_ set)) s = ((live, None), s1) →
  list_to_set live = activeEntries set →
  syncRun set s = mkWorld (s1, [(CallListEntries (Name (IPSet_ set)), None)]) [].
Proof.
  intros Hlist Hsame. unfold syncRun.
  rewrite (syncIPSetEntries_listed set s live s1 [] [] Hlist).
  by rewrite (proj2 (Equal_spec _ _) (eq_sym Hsame)).
Qed.

Lemma syncIPSetEntries_in_sync_witness :
  syncRun (kubeX memStore {[ "A"; "B" ]}) ["B"; "A"; "B"]
  = mkWorld (["B"; "A"; "B"], [(CallListEntries "KUBE-X", None)]) [].
Proof.
  apply (syncIPSetEntries_in_sync (kubeX memStore {[ "A"; "B" ]}) ["B"; "A"; "B"]
           ["B"; "A"; "B"] ["B"; "A"; "B"] eq_refl).
  by vm_compute.
Defined.

Lemma Difference_empty_r (s : sets.String) : sets.Difference s ∅ = s.
Proof.
  apply set_eq. intros x. rewrite elem_of_Difference. set_solver.
Qed.

Lemma Difference_empty_l (s : sets.String) : sets.Difference ∅ s = ∅.
Proof.
  apply set_eq. intros x. rewrite elem_of_Difference. set_solver.
Qed.

(** X11: after [resetEntries] nothing is desired, so a pass deletes every
    live entry, each one once, and adds nothing. *)
Theorem syncIPSetEntries_after_reset {S : Type} (set : IPSet S) (s : S)
    (live : list string) (s1 : S) :
  ListEntries (handle set) (Name (IPSet_ set)) s = ((live, None), s1) →
  ∃ dels : list string,
    callsOf (syncRun (resetEntries set) s)
    = CallListEntries (Name (IPSet_ set)) :: delCalls (Name (IPSet_ set)) dels
    ∧ NoDup dels ∧ (∀ e, e ∈ dels ↔ e ∈ live).
Proof.
  intros Hlist. exists (sets.List (list_to_set live)).
  rewrite (syncRun_calls (resetEntries set) s live s1 Hlist). cbn [resetEntries IPSet_ activeEntries].
  unfold sets.NewString. rewrite Difference_empty_r, Difference_empty_l, List_empty.
  split; [by rewrite app_nil_r|]. split; [apply NoDup_List|].
  intros e. by rewrite elem_of_List, elem_of_list_to_set.
Qed.

Lemma syncIPSetEntries_after_reset_witness :
  ∃ dels : list string,
    callsOf (syncRun (resetEntries (kubeX memStore {[ "A" ]})) ["B"; "C"; "B"])
    = CallListEntries "KUBE-X" :: delCalls "KUBE-X" dels
    ∧ NoDup dels ∧ (∀ e, e ∈ dels ↔ e ∈ ["B"; "C"; "B"]).
Proof.
  exact (syncIPSetEntries_after_reset (kubeX memStore {[ "A" ]}) ["B"; "C"; "B"]
           ["B"; "C"; "B"] ["B"; "C"; "B"] eq_refl).
Defined.

(** ** A pass on the [runner]: the command lines *)

Lemma syncIPSetEntries_listed_any {S : Type} (set : IPSet S) (w : World S)
    (live : list string) (s1 : S) :
  ListEntries (handle set) (Name (IPSet_ set)) (store w) = ((live, None), s1) →
  syncIPSetEntries set w
  = (if negb (sets.Equal (activeEntries set) (list_to_set live)) then
       forRange (sets.List (sets.Difference (list_to_set live) (activeEntries set)))
                (delLegacy set) ;;;
       forRange (sets.List (sets.Difference (activeEntries set) (list_to_set live)))
                (addActive set)
     else ret tt)
      (mkWorld s1 (glog w)).
Proof.
  intros Hlist. unfold syncIPSetEntries, bind, call. cbn.
  rewrite Hlist. cbn. by rewrite Insert_all.
Qed.

(** A loop whose body adds one item to some list kept in the world adds one
    item per entry, in order. *)
Lemma forRange_appends {S A : Type} (proj : World S → list A) (item : string → A)
    (body : string → M S unit) (entries : list string) (w : World S) :
  (∀ e w0, proj (body e w0).2 = proj w0 ++ [item e]) →
  proj (forRange entries body w).2 = proj w ++ (item <$> entries).
Proof.
  intros Hbody. revert w. induction entries as [|e rest IH]; intros w.
  { simpl. by rewrite app_nil_r. }
  cbn [forRange]. unfold bind. specialize (Hbody e w).
  destruct (body e w) as [[] w1]. cbn [snd] in Hbody.
  rewrite IH, Hbody. rewrite fmap_cons. by rewrite <-app_assoc.
Qed.

Section on_runner.
Context {S : Type}.
Variable exec : list string → S → (string * option error) * S.
Variable members : string → list string.
Variable desc : ipset.IPSet.
Variable desired : sets.String.

Let set : IPSet (S * list (list string)) :=
  {| IPSet_ := desc; activeEntries := desired;
     handle := runner (logged exec) members |}.

Lemma delLegacy_command (e : string) (w : World (S * list (list string))) :
  (store (delLegacy set e w).2).2
  = (store w).2 ++ [[IPSetCmd; "del"; Name desc; e]].
Proof.
  unfold delLegacy, bind, call. cbn. unfold runner_DelEntry, logged.
  destruct (exec _ _) as [[out [err|]] s1]; reflexivity.
Qed.

Lemma addActive_command (e : string) (w : World (S * list (list string))) :
  (store (addActive set e w).2).2
  = (store w).2 ++ [[IPSetCmd; "add"; Name desc; e; "-exist"]].
Proof.
  unfold addActive, bind, call. cbn. unfold runner_AddEntry, logged. cbn.
  destruct (exec _ _) as [[out [err|]] s1]; reflexivity.
Qed.

(** X13: on the [runner], with a set name that is not empty and a listing
    command that works, the command lines of a pass are [ipset list NAME],
    then [ipset del NAME entry] for each removal, then
    [ipset add NAME entry -exist] for each addition, whatever the deletions
    and additions return. *)
Theorem syncIPSetEntries_commands (s : S) (out : string) (s1 : S) :
  Name desc ≠ "" →
  exec [IPSetCmd; "list"; Name desc] s = ((out, None), s1) →
  (store (syncIPSetEntries set (mkWorld (s, []) [])).2).2
  = [IPSetCmd; "list"; Name desc]
    :: ((λ e, [IPSetCmd; "del"; Name desc; e])
          <$> sets.List (sets.Difference (list_to_set (members out)) desired))
    ++ ((λ e, [IPSetCmd; "add"; Name desc; e; "-exist"])
          <$> sets.List (sets.Difference desired (list_to_set (members out)))).
Proof.
  intros Hname Hexec.
  assert (ListEntries (handle set) (Name (IPSet_ set)) (s, [])
          = ((members out, None), (s1, [[IPSetCmd; "list"; Name desc]]))) as Hlist.
  { cbn. unfold runner_ListEntries. rewrite decide_False.
    - unfold logged. cbn. by rewrite Hexec.
    - destruct (Name desc); [done|simpl; lia]. }
  rewrite (syncIPSetEntries_listed_any set (mkWorld (s, []) []) _ _ Hlist).
  cbn [activeEntries set]. destruct (sets.Equal _ _) eqn:Heq; cbn [negb].
  - apply Equal_spec in Heq. rewrite <-Heq, Difference_same, List_empty. reflexivity.
  - unfold bind.
    match goal with
    | |- context [forRange ?es (delLegacy ?st) ?w0] =>
        pose proof (forRange_appends (λ w, (store w).2) _ (delLegacy st) es w0
                      delLegacy_command) as HD;
        destruct (forRange es (delLegacy st) w0) as [[] wD]
    end.
    cbn [snd] in HD.
    rewrite (forRange_appends (λ w, (store w).2) _ _ _ wD addActive_command).
    rewrite HD. cbn [store snd app]. reflexivity.
Qed.
End on_runner.

(** A listing that shows B and C, with A and B desired. *)
Lemma syncIPSetEntries_commands_witness :
  (store (syncIPSetEntries
            {| IPSet_ := describe "KUBE-X" HashIp; activeEntries := {[ "A"; "B" ]};
               handle := runner (logged (execOk "out")) (λ _, ["B"; "C"]) |}
            (mkWorld (tt, []) [])).2).2
  = [["ipset"; "list"; "KUBE-X"]; ["ipset"; "del"; "KUBE-X"; "C"];
     ["ipset"; "add"; "KUBE-X"; "A"; "-exist"]].
Proof.
  assert (Name (describe "KUBE-X" HashIp) ≠ "") as Hname by discriminate.
  exact (syncIPSetEntries_commands (execOk "out") (λ _, ["B"; "C"])
           (describe "KUBE-X" HashIp) {[ "A"; "B" ]} tt "out" tt Hname eq_refl).
Defined.

(** ** [ensureIPSets] *)

Lemma ensureIPSets_app {S : Type} (pre post : list (IPSet S * Creator S)) (s s0 : S)
    (pre' : list (IPSet S)) (lg : list EnsureMessage) :
  ensureIPSets pre s = ((pre', None, lg), s0) →
  ensureIPSets (pre ++ post) s
  = let '((post', r, lg'), s2) := ensureIPSets post s0 in ((pre' ++ post', r, lg'), s2).
Proof.
  revert s pre'. induction pre as [|[set h] pre IH]; intros s pre' Hpre.
  { simpl in Hpre. injection Hpre as <- <- <-. cbn [app].
    by destruct (ensureIPSets post s) as [[[? ?] ?] ?]. }
  cbn [app ensureIPSets] in *.
  destruct (CreateSet h (IPSet_ set) true s) as [[d [e|]] s1]; [done|].
  destruct (ensureIPSets pre s1) as [[[sets r] lg0] s2] eqn:Hrest.
  injection Hpre as <- -> <- <-.
  rewrite (IH s1 sets Hrest).
  by destruct (ensureIPSets post s2) as [[[? ?] ?] ?].
Qed.



End ipvs_proofs.
